(** * TB2J.external.p_tqdm: map with a progress bar, parallel and sequential

    A shallow embedding of [src/TB2J/external/p_tqdm.py].  The module is glue
    around three collaborators that are not part of the repository:
    - [pathos.helpers.cpu_count], which reports the number of CPUs;
    - [pathos.multiprocessing.ProcessPool], with [imap], [uimap] and [clear];
    - [tqdm.auto.tqdm], which wraps an iterable and yields its items unchanged.

    The collaborators are represented by a [platform] record (what they
    answer) and by a chronological trace of [event]s (what was asked of them).
    What is taken for granted about them:
    - [cpu_count()] returns a positive integer;
    - [Pool(n)] either raises or gives a new pool; [imap] delivers the
      results of the function over the zipped iterables in input order,
      [uimap] delivers the same results in the order in which the tasks
      finish, which the platform fixes; a result that is an exception is
      raised when it is delivered;
    - [tqdm(...)] either raises or yields the items it is given, in order.

    Iterables are finite.  Python generators are represented by an explicit
    resumable state ([generator]) advanced by [next]; the prologue of a
    generator function runs at the first [next]. *)

From Stdlib Require Import ZArith Bool.
From Stdlib Require Import Floats.SpecFloat.
From stdpp Require Import gmap strings list fin_maps.

Open Scope Z_scope.

(** ** Python values that occur as keyword options *)

Inductive pyval :=
| VNone
| VBool (b : bool)
| VInt (n : Z)
| VFloat (x : spec_float)
| VStr (s : string).

(** Truth value of an object, as tested by [or]. *)
Definition truthy (v : pyval) : bool :=
  match v with
  | VNone => false
  | VBool b => b
  | VInt n => negb (n =? 0)
  | VFloat (S754_zero _) => false
  | VFloat _ => true
  | VStr EmptyString => false
  | VStr _ => true
  end.

(** [a or b] *)
Definition py_or (a b : pyval) : pyval := if truthy a then a else b.

(** Keyword options: a dict from names to values. *)
Abbreviation kwargs := (gmap string pyval).

(** [kwargs.pop(key, None)]: the value (or [None]) and the dict without the key. *)
Definition pop (key : string) (kw : kwargs) : pyval * kwargs :=
  (default VNone (kw !! key), delete key kw).

(** ** Binary64 arithmetic used by the worker-count resolution *)

Definition prec64 : Z := 53.
Definition emax64 : Z := 1024.

(** Conversion of a Python int to a float (round to nearest, ties to even). *)
Definition float_of_int (n : Z) : spec_float :=
  binary_normalize prec64 emax64 n 0 false.

Definition float_mul (x y : spec_float) : spec_float := SFmul prec64 emax64 x y.

(** Round half to even of [m / d] for [0 <= m], [0 < d]. *)
Definition round_half_even_div (m d : Z) : Z :=
  let q := m / d in
  let r := m mod d in
  match 2 * r ?= d with
  | Lt => q
  | Gt => q + 1
  | Eq => if Z.even q then q else q + 1
  end.

(** Magnitude of [round(x)] for the finite float [m * 2^e]. *)
Definition round_magnitude (m : positive) (e : Z) : Z :=
  match e with
  | Zneg p => round_half_even_div (Zpos m) (2 ^ Zpos p)
  | _ => Zpos m * 2 ^ e
  end.

(** ** Collaborators and their trace *)

Inductive event :=
| EvCpuCount                                    (* cpu_count() *)
| EvLen (i : nat)                               (* len(iterables[i]) *)
| EvPool (pool : nat) (workers : pyval)         (* Pool(num_cpus) *)
| EvMap (pool : nat) (ordered : bool)           (* pool.imap / pool.uimap *)
| EvTqdm (total : pyval) (kw : kwargs)          (* tqdm(..., total=, **kwargs) *)
| EvClear (pool : nat).                         (* pool.clear() *)

Abbreviation trace := (list event).

(** What the collaborators answer.  [finish_rank i] is the completion rank
    of the [i]-th submitted task, which fixes the delivery order of [uimap]. *)
Record platform := Platform {
  cpu_count : positive;
  pool_accepts : pyval -> bool;
  tqdm_accepts : pyval -> kwargs -> bool;
  finish_rank : nat -> nat
}.

(** ** Exceptions, callables and iterables *)

Section Mapper.

(** Items of the iterables, results of the mapped function, and the
    exceptions the mapped function may raise. *)
Context {A B E : Type}.

Inductive exn :=
| ValueError_min_empty        (* min() arg is an empty sequence *)
| TypeError_multiple_values (key : string)
                              (* got multiple values for keyword argument *)
| ValueError_nan_to_int       (* cannot convert float NaN to integer *)
| OverflowError_inf_to_int    (* cannot convert float infinity to integer *)
| OverflowError_int_to_float  (* int too large to convert to float *)
| PoolError (workers : pyval) (* raised by the pool constructor *)
| TqdmError                   (* raised by the tqdm constructor *)
| FunctionError (e : E).      (* raised by the mapped function *)

(** The mapped function, applied to one tuple of the zipped iterables; it
    returns a result or raises an exception of its own. *)
Definition callable := list A -> E + B.

(** A call of the function on one tuple, as seen by the module. *)
Definition invoke (function : callable) (args : list A) : exn + B :=
  match function args with
  | inr item => inr item
  | inl e => inl (FunctionError e)
  end.

(** An iterable: its items, and whether it is an instance of [Sized]. *)
Record iterable := Iterable { sized : bool; items : list A }.

(** ** A state and error monad over the trace *)

Definition M (X : Type) : Type := trace -> (exn + X) * trace.

Definition ret {X} (x : X) : M X := fun t => (inr x, t).

Definition raise {X} (e : exn) : M X := fun t => (inl e, t).

Definition bind {X Y} (m : M X) (k : X -> M Y) : M Y :=
  fun t =>
    match m t with
    | (inr x, t') => k x t'
    | (inl e, t') => (inl e, t')
    end.

Definition emit (ev : event) : M unit := fun t => (inr tt, t ++ [ev]).

Definition lift {X} (r : exn + X) : M X := fun t => (r, t).

End Mapper.

Arguments exn : clear implicits.
Arguments callable : clear implicits.
Arguments iterable : clear implicits.
Arguments M : clear implicits.

Notation "x <- m ;; k" := (bind m (fun x => k))
  (at level 100, m at next level, right associativity).
Notation "m ;;; k" := (bind m (fun _ => k))
  (at level 100, right associativity).

(** ** Builtins: [zip], [min], [round], completion order *)

Section Builtins.
Context {X : Type}.

(** [zip] of the iterables: tuples of corresponding items, up to the shortest. *)
Fixpoint zip_cons (xs : list X) (rows : list (list X)) : list (list X) :=
  match xs, rows with
  | x :: xs', row :: rows' => (x :: row) :: zip_cons xs' rows'
  | _, _ => []
  end.

Fixpoint zip_star (its : list (list X)) : list (list X) :=
  match its with
  | [] => []
  | [xs] => map (fun x => [x]) xs
  | xs :: rest => zip_cons xs (zip_star rest)
  end.

(** Insertion of a task that finished at rank [r]; among equal ranks the
    task submitted first is delivered first. *)
Fixpoint insert_by_rank (r : nat) (x : X) (l : list (nat * X)) : list (nat * X) :=
  match l with
  | [] => [(r, x)]
  | (r', y) :: l' =>
      if (r' <? r)%nat then (r', y) :: insert_by_rank r x l' else (r, x) :: l
  end.

Fixpoint ranked_from (rank : nat -> nat) (i : nat) (l : list X) : list (nat * X) :=
  match l with
  | [] => []
  | x :: l' => insert_by_rank (rank i) x (ranked_from rank (S i) l')
  end.

(** The results of the submitted tasks in the order in which they finish. *)
Definition completion_order (rank : nat -> nat) (l : list X) : list X :=
  map snd (ranked_from rank 0%nat l).

End Builtins.

(** [min] of a sequence of lengths; [None] stands for the [ValueError] on an
    empty sequence. *)
Definition py_min (l : list nat) : option nat :=
  match l with
  | [] => None
  | n :: l' => Some (fold_left Nat.min l' n)
  end.

Section Operations.
Context {A B E : Type}.
Variable pf : platform.

Local Abbreviation exn := (exn E).
Local Abbreviation callable := (callable A B E).
Local Abbreviation iterable := (iterable A).
Local Abbreviation M := (M E).

(** [int(round(x))] on a float. *)
Definition py_round (x : spec_float) : exn + Z :=
  match x with
  | S754_zero _ => inr 0
  | S754_finite s m e => inr (cond_Zopp s (round_magnitude m e))
  | S754_infinity _ => inl OverflowError_inf_to_int
  | S754_nan => inl ValueError_nan_to_int
  end.

(** [x * n] for a float [x] and an int [n]. *)
Definition py_float_times_int (x : spec_float) (n : Z) : exn + spec_float :=
  match float_of_int n with
  | S754_infinity _ => inl OverflowError_int_to_float
  | y => inr (float_mul x y)
  end.

Definition call_cpu_count : M Z :=
  emit EvCpuCount ;;; ret (Zpos (cpu_count pf)).

(** Lines 61-65 of [_parallel]. *)
Definition resolve_num_cpus (num_cpus : pyval) : M pyval :=
  match num_cpus with
  | VNone => n <- call_cpu_count ;; ret (VInt n)
  | VFloat x =>
      n <- call_cpu_count ;;
      p <- lift (py_float_times_int x n) ;;
      r <- lift (py_round p) ;;
      ret (VInt r)
  | _ => ret num_cpus
  end.

(** [[len(iterable) for iterable in iterables if isinstance(iterable, Sized)]],
    numbering the iterables from [i]. *)
Fixpoint sized_lengths (i : nat) (its : list iterable) : M (list nat) :=
  match its with
  | [] => ret []
  | it :: rest =>
      if sized it then
        emit (EvLen i) ;;;
        ls <- sized_lengths (S i) rest ;;
        ret (length (items it) :: ls)
      else sized_lengths (S i) rest
  end.

(** [min(lengths) if lengths else None] *)
Definition min_or_none (lengths : list nat) : pyval :=
  match py_min lengths with
  | Some n => VInt (Z.of_nat n)
  | None => VNone
  end.

Definition is_pool (ev : event) : bool :=
  match ev with EvPool _ _ => true | _ => false end.

(** [Pool(num_cpus)]: a pool that no earlier call has created. *)
Definition new_pool (workers : pyval) : M nat :=
  fun t =>
    if pool_accepts pf workers then
      let id := length (filter is_pool t) in
      (inr id, t ++ [EvPool id workers])
    else (inl (PoolError workers), t).

(** [getattr(pool, map_type)(function, *iterables)] *)
Definition pool_map (pool : nat) (ordered : bool) (function : callable)
    (its : list iterable) : M (list (exn + B)) :=
  emit (EvMap pool ordered) ;;;
  let results := map (invoke function) (zip_star (map items its)) in
  ret (if ordered then results else completion_order (finish_rank pf) results).

(** [tqdm(iterable, total=length, **kwargs)]; the keyword [total] may not
    occur a second time in [kwargs], in which case the call is not made. *)
Definition tqdm (total : pyval) (kw : kwargs) : M unit :=
  match kw !! "total"%string with
  | Some _ => raise (TypeError_multiple_values "total")
  | None =>
      emit (EvTqdm total kw) ;;;
      if tqdm_accepts pf total kw then ret tt else raise TqdmError
  end.

(** The body of [_parallel] up to the first iteration of its loop. *)
Definition parallel_start (ordered : bool) (function : callable)
    (its : list iterable) (kw : kwargs) : M (nat * list (exn + B)) :=
  let '(num_cpus, kw) := pop "num_cpus" kw in
  num_cpus <- resolve_num_cpus num_cpus ;;
  let '(total, kw) := pop "total" kw in
  lengths <- sized_lengths 0 its ;;
  let length := py_or total (min_or_none lengths) in
  pool <- new_pool num_cpus ;;
  results <- pool_map pool ordered function its ;;
  tqdm length kw ;;;
  ret (pool, results).

(** The body of [_sequential] up to the first iteration of its loop. *)
Definition sequential_start (its : list iterable) (kw : kwargs)
    : M (list (list A)) :=
  lengths <- sized_lengths 0 its ;;
  match py_min lengths with
  | None => raise ValueError_min_empty
  | Some length =>
      let tasks := zip_star (map items its) in
      tqdm (VInt (Z.of_nat length)) kw ;;;
      ret tasks
  end.

End Operations.

(** ** Generators *)

Section Generators.
Context {A B E : Type}.
Variable pf : platform.

Local Abbreviation exn := (exn E).
Local Abbreviation callable := (callable A B E).
Local Abbreviation iterable := (iterable A).

(** A generator object: created but not started, suspended at the [yield]
    of one of the two loops, or finished. *)
Inductive generator :=
| ParFresh (ordered : bool) (function : callable) (its : list iterable) (kw : kwargs)
| ParLoop (pool : nat) (pending : list (exn + B))
| SeqFresh (function : callable) (its : list iterable) (kw : kwargs)
| SeqLoop (function : callable) (pending : list (list A))
| Closed.

(** What one request for the next element gives. *)
Inductive outcome :=
| Yield (item : B)
| StopIteration
| Raise (e : exn).

(** One turn of [for item in tqdm(map_func(...)): yield item], followed by
    [pool.clear()] when the loop ends. *)
Definition parallel_loop (pool : nat) (pending : list (exn + B))
    (t : trace) : outcome * generator * trace :=
  match pending with
  | inr item :: rest => (Yield item, ParLoop pool rest, t)
  | inl e :: _ => (Raise e, Closed, t)
  | [] => (StopIteration, Closed, t ++ [EvClear pool])
  end.

(** One turn of [for item in tqdm(map(function, ...)): yield item]. *)
Definition sequential_loop (function : callable) (pending : list (list A))
    (t : trace) : outcome * generator * trace :=
  match pending with
  | task :: rest =>
      match invoke function task with
      | inr item => (Yield item, SeqLoop function rest, t)
      | inl e => (Raise e, Closed, t)
      end
  | [] => (StopIteration, Closed, t)
  end.

(** [next(generator)] *)
Definition next (g : generator) (t : trace) : outcome * generator * trace :=
  match g with
  | ParFresh ordered function its kw =>
      match parallel_start pf ordered function its kw t with
      | (inr (pool, results), t') => parallel_loop pool results t'
      | (inl e, t') => (Raise e, Closed, t')
      end
  | ParLoop pool pending => parallel_loop pool pending t
  | SeqFresh function its kw =>
      match sequential_start pf its kw t with
      | (inr tasks, t') => sequential_loop function tasks t'
      | (inl e, t') => (Raise e, Closed, t')
      end
  | SeqLoop function pending => sequential_loop function pending t
  | Closed => (StopIteration, Closed, t)
  end.


(** The number of items a generator can still yield. *)
Definition remaining (g : generator) : nat :=
  match g with
  | ParFresh _ _ its _ | SeqFresh _ its _ => length (zip_star (map items its))
  | ParLoop _ pending => length pending
  | SeqLoop _ pending => length pending
  | Closed => 0
  end.

(** [list(generator)], requesting at most [fuel] elements; [None] when the
    fuel does not reach the end of the generator. *)
Fixpoint drain (fuel : nat) (g : generator) (t : trace)
    : option ((exn + list B) * trace) :=
  match fuel with
  | O => None
  | S fuel' =>
      match next g t with
      | (Yield item, g', t') =>
          match drain fuel' g' t' with
          | Some (inr l, t'') => Some (inr (item :: l), t'')
          | other => other
          end
      | (StopIteration, _, t') => Some (inr [], t')
      | (Raise e, _, t') => Some (inl e, t')
      end
  end.

Definition py_list (g : generator) (t : trace) : option ((exn + list B) * trace) :=
  drain (S (remaining g)) g t.

(** The first [n] requests made of a generator: their outcomes in order,
    the generator and the trace afterwards. *)
Fixpoint take (n : nat) (g : generator) (t : trace)
    : list outcome * generator * trace :=
  match n with
  | O => ([], g, t)
  | S n' =>
      let '(o, g', t') := next g t in
      let '(os, g'', t'') := take n' g' t' in
      (o :: os, g'', t'')
  end.

(** *** The six entry points *)

Definition p_map (function : callable) (its : list iterable) (kw : kwargs)
    (t : trace) : option ((exn + list B) * trace) :=
  let ordered := true in
  let generator := ParFresh ordered function its kw in
  py_list generator t.

Definition p_imap (function : callable) (its : list iterable) (kw : kwargs)
    (t : trace) : generator * trace :=
  let ordered := true in
  (ParFresh ordered function its kw, t).

Definition p_umap (function : callable) (its : list iterable) (kw : kwargs)
    (t : trace) : option ((exn + list B) * trace) :=
  let ordered := false in
  let generator := ParFresh ordered function its kw in
  py_list generator t.

Definition p_uimap (function : callable) (its : list iterable) (kw : kwargs)
    (t : trace) : generator * trace :=
  let ordered := false in
  (ParFresh ordered function its kw, t).

Definition t_map (function : callable) (its : list iterable) (kw : kwargs)
    (t : trace) : option ((exn + list B) * trace) :=
  py_list (SeqFresh function its kw) t.

Definition t_imap (function : callable) (its : list iterable) (kw : kwargs)
    (t : trace) : generator * trace :=
  (SeqFresh function its kw, t).

End Generators.

Arguments Closed {A B E}.
Arguments StopIteration {B E}.

(** ** Reference definitions and views of the computation *)

Section Views.
Context {A B E : Type}.
Variable pf : platform.

Local Abbreviation exn := (exn E).
Local Abbreviation callable := (callable A B E).
Local Abbreviation iterable := (iterable A).

(** Evaluation of a list of results from left to right, stopping at the
    first exception. *)
Fixpoint collect (rs : list (exn + B)) : exn + list B :=
  match rs with
  | [] => inr []
  | inl e :: _ => inl e
  | inr item :: rest =>
      match collect rest with
      | inr l => inr (item :: l)
      | inl e => inl e
      end
  end.

(** The list comprehension [[function(args) for args in tasks]], each
    tuple being passed positionally. *)
Definition comprehension (function : callable) (tasks : list (list A)) : exn + list B :=
  collect (map (invoke function) tasks).

(** The task set of a call: the zipped iterables. *)
Definition tasks_of (its : list iterable) : list (list A) :=
  zip_star (map items its).

(** The lengths of the iterables that are [Sized]. *)
Definition known_lengths (its : list iterable) : list nat :=
  map (fun it => length (items it)) (filter (fun it => sized it) its).

(** The [len] calls made on the iterables numbered from [i]. *)
Fixpoint len_events (i : nat) (its : list iterable) : trace :=
  match its with
  | [] => []
  | it :: rest =>
      if sized it then EvLen i :: len_events (S i) rest
      else len_events (S i) rest
  end.

(** The worker count a [num_cpus] option resolves to, and the calls made
    for it. *)
Definition worker_count (num_cpus : pyval) : exn + pyval :=
  fst (resolve_num_cpus pf num_cpus []).

Definition cpu_events (num_cpus : pyval) : trace :=
  match num_cpus with
  | VNone | VFloat _ => [EvCpuCount]
  | _ => []
  end.

(** The options of a parallel call once the two recognised keys are popped. *)
Definition forwarded (kw : kwargs) : kwargs :=
  delete "total"%string (delete "num_cpus"%string kw).

(** The total a parallel call gives to the progress display. *)
Definition parallel_total (its : list iterable) (kw : kwargs) : pyval :=
  py_or (default VNone (kw !! "total"%string)) (min_or_none (known_lengths its)).

(** The order in which the pool delivers the results. *)
Definition delivery (ordered : bool) (rs : list (exn + B)) : list (exn + B) :=
  if ordered then rs else completion_order (finish_rank pf) rs.

(** The collaborators accept the configuration of a parallel call. *)
Definition parallel_ready (its : list iterable) (kw : kwargs) : bool :=
  match worker_count (default VNone (kw !! "num_cpus"%string)) with
  | inr workers =>
      pool_accepts pf workers
      && tqdm_accepts pf (parallel_total its kw) (forwarded kw)
  | inl _ => false
  end.

(** The events of a completed prologue of [_parallel]. *)
Definition parallel_events (ordered : bool) (its : list iterable) (kw : kwargs)
    (pool : nat) (workers : pyval) : trace :=
  cpu_events (default VNone (kw !! "num_cpus"%string))
  ++ len_events 0 its
  ++ [EvPool pool workers; EvMap pool ordered;
      EvTqdm (parallel_total its kw) (forwarded kw)].


(** A sequence of outcomes ends the iteration normally when its first
    outcome that is not an item is [StopIteration]. *)
Fixpoint exhausted (os : list (outcome (B:=B) (E:=E))) : bool :=
  match os with
  | Yield _ :: os' => exhausted os'
  | StopIteration :: _ => true
  | _ => false
  end.

(** The items among a sequence of outcomes. *)
Definition yields (os : list (outcome (B:=B) (E:=E))) : list B :=
  omap (fun o => match o with Yield item => Some item | _ => None end) os.

(** An outcome that ends the iteration. *)
Definition is_end (o : outcome (B:=B) (E:=E)) : bool :=
  match o with Yield _ => false | _ => true end.

(** What [list] returns or raises after the items [vs] and the ending
    outcome [o]. *)
Definition result_of (vs : list B) (o : outcome (B:=B) (E:=E)) : exn + list B :=
  match o with Raise e => inl e | _ => inr vs end.

End Views.

(** ** Views of a trace and of a float *)

(** A call of [cpu_count]. *)
Definition is_cpu (ev : event) : bool :=
  match ev with EvCpuCount => true | _ => false end.

(** An event of the pool or of the CPU count, which only [_parallel] causes. *)
Definition is_parallel_event (ev : event) : bool :=
  match ev with
  | EvCpuCount | EvPool _ _ | EvMap _ _ | EvClear _ => true
  | EvLen _ | EvTqdm _ _ => false
  end.

(** The totals of the progress displays opened along a trace. *)
Definition display_totals (t : trace) : list pyval :=
  omap (fun ev => match ev with EvTqdm total _ => Some total | _ => None end) t.



(** ** A concrete platform and concrete calls *)

(** Some of the options that tqdm knows. *)
Definition display_options : list string :=
  ["desc"; "disable"; "leave"; "unit"; "ncols"; "position"]%string.

(** A machine with eight CPUs; a pool needs at least one worker, tqdm
    refuses options it does not know, and of the tasks submitted together
    the last one finishes first. *)
Definition workstation : platform := {|
  cpu_count := 8;
  pool_accepts := fun v => match v with VInt n => 1 <=? n | _ => false end;
  tqdm_accepts := fun _ kw =>
    forallb (fun k => existsb (String.eqb k) display_options)
            (map fst (map_to_list kw));
  finish_rank := fun i => (100 - i)%nat
|}.

(** [lambda x: x * 2] *)
Definition double : callable Z Z string :=
  fun args => match args with [x] => inr (x * 2) | _ => inl "TypeError"%string end.

(** [lambda x, y: x + y] *)
Definition add : callable Z Z string :=
  fun args => match args with [x; y] => inr (x + y) | _ => inl "TypeError"%string end.

(** A function that raises [ValueError] on the input 3. *)
Definition fails_on_three : callable Z Z string :=
  fun args =>
    match args with
    | [x] => if x =? 3 then inl "ValueError"%string else inr (x * x)
    | _ => inl "TypeError"%string
    end.


(** ** Lemmas on the builtins *)

Section BuiltinFacts.
Context {X : Type}.

Lemma length_zip_cons (xs : list X) (rows : list (list X)) :
  length (zip_cons xs rows) = Nat.min (length xs) (length rows).
Proof.
  revert rows; induction xs as [|x xs IH]; intros [|row rows]; simpl; auto.
Qed.

Lemma fold_left_min_init (l : list nat) (a b : nat) :
  fold_left Nat.min l (Nat.min a b) = Nat.min a (fold_left Nat.min l b).
Proof.
  revert a b; induction l as [|c l IH]; intros a b; simpl; [reflexivity|].
  rewrite <- IH. f_equal. lia.
Qed.

Lemma py_min_cons (n : nat) (l : list nat) :
  py_min (n :: l) = Some (match py_min l with Some m => Nat.min n m | None => n end).
Proof.
  destruct l as [|m l]; simpl; [reflexivity|].
  by rewrite fold_left_min_init.
Qed.

Lemma py_min_None (l : list nat) : py_min l = None <-> l = [].
Proof. destruct l; simpl; split; congruence. Qed.

(** [zip] stops at the shortest of its arguments. *)
Lemma length_zip_star (its : list (list X)) (n : nat) :
  py_min (map length its) = Some n -> length (zip_star its) = n.
Proof.
  revert n; induction its as [|xs rest IH]; intros n; [discriminate|].
  rewrite fmap_cons, py_min_cons. intros [= <-].
  destruct rest as [|ys rest'].
  - simpl. apply List.length_map.
  - change (zip_star (xs :: ys :: rest')) with (zip_cons xs (zip_star (ys :: rest'))).
    rewrite length_zip_cons.
    destruct (py_min (map length (ys :: rest'))) as [m|] eqn:Hm.
    + f_equal. by apply IH.
    + by apply py_min_None in Hm.
Qed.


Lemma insert_by_rank_perm (r : nat) (x : X) (l : list (nat * X)) :
  insert_by_rank r x l ≡ₚ (r, x) :: l.
Proof.
  induction l as [|[r' y] l IH]; simpl; [reflexivity|].
  destruct (r' <? r)%nat; [|reflexivity].
  rewrite IH. apply Permutation_swap.
Qed.

Lemma ranked_from_perm (rank : nat -> nat) (l : list X) (i : nat) :
  map snd (ranked_from rank i l) ≡ₚ l.
Proof.
  revert i; induction l as [|x l IH]; intros i; simpl; [reflexivity|].
  rewrite insert_by_rank_perm. simpl. by rewrite IH.
Qed.

(** The pool delivers every result exactly once, whatever the order. *)
Lemma completion_order_perm (rank : nat -> nat) (l : list X) :
  completion_order rank l ≡ₚ l.
Proof. apply ranked_from_perm. Qed.

End BuiltinFacts.

(** ** Running the two prologues *)

Section StartFacts.
Context {A B E : Type}.
Variable pf : platform.

Local Abbreviation exn := (exn E).
Local Abbreviation callable := (callable A B E).
Local Abbreviation iterable := (iterable A).

Lemma sized_lengths_run (its : list iterable) (i : nat) (t : trace) :
  sized_lengths (E:=E) i its t = (inr (known_lengths its), t ++ len_events i its).
Proof.
  revert i t; induction its as [|it rest IH]; intros i t; simpl.
  - unfold ret. by rewrite app_nil_r.
  - unfold known_lengths. rewrite filter_cons.
    destruct (sized it) eqn:Hs; simpl; [|apply IH].
    unfold bind, emit. rewrite IH. simpl. unfold ret.
    by rewrite <- app_assoc.
Qed.

(** The resolution of the worker count reads the trace nowhere. *)
Lemma resolve_num_cpus_run (v : pyval) (t : trace) :
  resolve_num_cpus (E:=E) pf v t = (worker_count pf v, t ++ cpu_events v).
Proof.
  unfold worker_count.
  destruct v as [| b | n | x | s]; simpl;
    unfold bind, call_cpu_count, bind, emit, ret, lift; simpl;
    rewrite ?app_nil_r; try reflexivity.
  destruct (py_float_times_int x _) as [e|p]; [reflexivity|].
  destruct (py_round p); reflexivity.
Qed.

Lemma pop_total_after_num_cpus (kw : kwargs) :
  delete "num_cpus"%string kw !! "total"%string = kw !! "total"%string.
Proof. by apply lookup_delete_ne. Qed.

Lemma pools_app_other (t u : trace) :
  Forall (fun ev => is_pool ev = false) u ->
  length (filter is_pool (t ++ u)) = length (filter is_pool t).
Proof.
  intros Hu. rewrite filter_app, length_app.
  assert (Hnil : filter is_pool u = []).
  { induction u as [|ev u IH]; [reflexivity|].
    apply Forall_cons in Hu as [Hev Hu].
    rewrite filter_cons. destruct (is_pool ev); [discriminate | by apply IH]. }
  rewrite Hnil. simpl. lia.
Qed.

Lemma len_events_no_pool (its : list iterable) (i : nat) :
  Forall (fun ev => is_pool ev = false) (len_events i its).
Proof.
  revert i; induction its as [|it rest IH]; intros i; simpl; [constructor|].
  destruct (sized it); [constructor; [reflexivity|]|]; apply IH.
Qed.

Lemma cpu_events_no_pool (v : pyval) :
  Forall (fun ev => is_pool ev = false) (cpu_events v).
Proof. destruct v; repeat constructor. Qed.

(** When the prologue of [_parallel] completes, and what it has done then. *)
Lemma parallel_start_ok (ordered : bool) (f : callable) (its : list iterable)
    (kw : kwargs) (t t' : trace) (pool : nat) (rs : list (exn + B)) :
  parallel_start pf ordered f its kw t = (inr (pool, rs), t') <->
  exists workers,
    worker_count (E:=E) pf (default VNone (kw !! "num_cpus"%string)) = inr workers
    /\ pool_accepts pf workers = true
    /\ tqdm_accepts pf (parallel_total its kw) (forwarded kw) = true
    /\ pool = length (filter is_pool t)
    /\ rs = delivery pf ordered (map (invoke f) (tasks_of its))
    /\ t' = t ++ cpu_events (default VNone (kw !! "num_cpus"%string))
              ++ len_events 0 its
              ++ [EvPool pool workers; EvMap pool ordered;
                  EvTqdm (parallel_total its kw) (forwarded kw)].
Proof.
  unfold parallel_start, pop, bind.
  rewrite resolve_num_cpus_run.
  destruct (worker_count pf _) as [e|workers] eqn:Hw.
  { split; [discriminate | intros (w & [=] & _)]. }
  rewrite sized_lengths_run, pop_total_after_num_cpus.
  fold (forwarded kw). fold (parallel_total its kw).
  unfold new_pool.
  destruct (pool_accepts pf workers) eqn:Hp.
  2:{ split; [discriminate | intros (w & [= <-] & Hacc & _); congruence]. }
  unfold pool_map, tqdm, bind, emit, ret.
  assert (Hnone : forwarded kw !! "total"%string = None) by apply lookup_delete_eq.
  rewrite Hnone.
  destruct (tqdm_accepts pf (parallel_total its kw) (forwarded kw)) eqn:Ht; unfold raise.
  2:{ split; [discriminate | intros (w & _ & _ & Hacc & _); congruence]. }
  rewrite <- !app_assoc. simpl app.
  rewrite (pools_app_other t (cpu_events _ ++ len_events 0 its))
    by (apply Forall_app; split; [apply cpu_events_no_pool | apply len_events_no_pool]).
  split.
  - intros [= <- <- <-]. exists workers. repeat split; try done.
  - intros (w & [= <-] & _ & _ & -> & -> & ->). reflexivity.
Qed.

End StartFacts.

Section LoopFacts.
Context {A B E : Type}.
Variable pf : platform.

Local Abbreviation exn := (exn E).
Local Abbreviation callable := (callable A B E).
Local Abbreviation iterable := (iterable A).
Local Abbreviation generator := (generator (A:=A) (B:=B) (E:=E)).
Local Abbreviation ParLoop := (ParLoop (A:=A) (B:=B) (E:=E)).

(** When the prologue of [_sequential] completes, and what it has done then. *)
Lemma sequential_start_ok (its : list iterable) (kw : kwargs) (t t' : trace)
    (tasks : list (list A)) :
  sequential_start (E:=E) pf its kw t = (inr tasks, t') <->
  exists n,
    py_min (known_lengths its) = Some n
    /\ kw !! "total"%string = None
    /\ tqdm_accepts pf (VInt (Z.of_nat n)) kw = true
    /\ tasks = tasks_of its
    /\ t' = t ++ len_events 0 its ++ [EvTqdm (VInt (Z.of_nat n)) kw].
Proof.
  unfold sequential_start, bind. rewrite sized_lengths_run.
  destruct (py_min (known_lengths its)) as [n|].
  2:{ split; [discriminate | intros (n & [=] & _)]. }
  unfold tqdm, bind, raise, emit, ret.
  destruct (kw !! "total"%string) as [v|].
  { split; [discriminate | intros (m & _ & [=] & _)]. }
  destruct (tqdm_accepts pf (VInt (Z.of_nat n)) kw) eqn:Ht.
  - rewrite <- app_assoc. split.
    + intros [= <- <-]. by exists n.
    + intros (m & [= <-] & _ & _ & -> & ->). reflexivity.
  - split; [discriminate | intros (m & [= <-] & _ & Hacc & _); congruence].
Qed.


Lemma collect_inr (vs : list B) : collect (E:=E) (map inr vs) = inr vs.
Proof. induction vs as [|v vs IH]; simpl; [|rewrite IH]; reflexivity. Qed.

Lemma collect_inr_inv (rs : list (exn + B)) (vs : list B) :
  collect rs = inr vs -> rs = map inr vs.
Proof.
  revert vs; induction rs as [|[e|v] rs IH]; intros vs; simpl.
  - by intros [= <-].
  - discriminate.
  - destruct (collect rs) as [e|l]; [discriminate|].
    intros [= <-]. simpl. f_equal. by apply IH.
Qed.



Lemma delivery_perm (ordered : bool) (rs : list (exn + B)) :
  delivery pf ordered rs ≡ₚ rs.
Proof. destruct ordered; [reflexivity | apply completion_order_perm]. Qed.

Lemma delivery_length (ordered : bool) (rs : list (exn + B)) :
  length (delivery pf ordered rs) = length rs.
Proof. by rewrite delivery_perm. Qed.

(** Draining the loop of [_parallel]: the results up to the first
    exception; the pool is cleared when there is none. *)
Lemma drain_parallel_loop (pool : nat) (rs : list (exn + B)) (fuel : nat) (t : trace) :
  (length rs < fuel)%nat ->
  drain pf fuel (ParLoop pool rs) t =
  Some (collect rs,
        match collect rs with inr _ => t ++ [EvClear pool] | inl _ => t end).
Proof.
  revert fuel; induction rs as [|[e|v] rs IH]; intros [|fuel] Hlt;
    simpl in Hlt; try lia; simpl; try reflexivity.
  rewrite IH by lia. by destruct (collect rs).
Qed.

(** Draining the loop of [_sequential]. *)
Lemma drain_sequential_loop (f : callable) (tasks : list (list A)) (fuel : nat) (t : trace) :
  (length tasks < fuel)%nat ->
  drain pf fuel (SeqLoop f tasks) t = Some (comprehension f tasks, t).
Proof.
  unfold comprehension.
  revert fuel; induction tasks as [|task tasks IH]; intros [|fuel] Hlt;
    simpl in Hlt; try lia; simpl; try reflexivity.
  destruct (invoke f task) as [e|v]; [reflexivity|].
  rewrite IH by lia. by destruct (collect _).
Qed.

(** A finished generator stays finished and touches nothing. *)
Lemma take_closed (n : nat) (t : trace) :
  take pf n (Closed : generator) t = (replicate n StopIteration, Closed, t).
Proof. induction n as [|n IH]; simpl; [|rewrite IH]; reflexivity. Qed.

(** The first requests made of the loop of [_parallel] while results are
    delivered. *)
Lemma take_parallel_loop (pool : nat) (vs : list B) (rest : list (exn + B)) (t : trace) :
  take pf (length vs) (ParLoop pool (map inr vs ++ rest)) t =
  (map Yield vs, ParLoop pool rest, t).
Proof.
  induction vs as [|v vs IH]; simpl; [reflexivity|]. by rewrite IH.
Qed.

Lemma take_sequential_loop (f : callable) (pre : list (list A)) (vs : list B)
    (rest : list (list A)) (t : trace) :
  Forall2 (fun task v => f task = inr v) pre vs ->
  take pf (length vs) (SeqLoop f (pre ++ rest)) t =
  (map Yield vs, SeqLoop f rest, t).
Proof.
  induction 1 as [|task v pre vs Hf _ IH]; simpl; [reflexivity|].
  unfold invoke. by rewrite Hf, IH.
Qed.

Lemma take_app (n m : nat) (g : generator) (t : trace) :
  take pf (n + m) g t =
  let '(os, g', t') := take pf n g t in
  let '(os', g'', t'') := take pf m g' t' in
  (os ++ os', g'', t'').
Proof.
  revert g t; induction n as [|n IH]; intros g t; simpl.
  - by destruct (take pf m g t) as [[os g'] t'].
  - destruct (next pf g t) as [[o g1] t1]. rewrite IH.
    destruct (take pf n g1 t1) as [[os g2] t2].
    by destruct (take pf m g2 t2) as [[os' g3] t3].
Qed.

End LoopFacts.

(** ** Eager and lazy consumption of a fresh generator *)

Section Consumption.
Context {A B E : Type}.
Variable pf : platform.

Local Abbreviation exn := (exn E).
Local Abbreviation callable := (callable A B E).
Local Abbreviation iterable := (iterable A).
Local Abbreviation generator := (generator (A:=A) (B:=B) (E:=E)).
Local Abbreviation ParLoop := (ParLoop (A:=A) (B:=B) (E:=E)).

(** A ready parallel call completes its prologue. *)
Lemma parallel_ready_start (ordered : bool) (f : callable) (its : list iterable)
    (kw : kwargs) (t : trace) :
  parallel_ready (E:=E) pf its kw = true ->
  exists workers,
    worker_count (E:=E) pf (default VNone (kw !! "num_cpus"%string)) = inr workers
    /\ parallel_start pf ordered f its kw t =
       (inr (length (filter is_pool t),
             delivery pf ordered (map (invoke f) (tasks_of its))),
        t ++ parallel_events ordered its kw (length (filter is_pool t)) workers).
Proof.
  unfold parallel_ready.
  destruct (worker_count pf _) as [e|workers] eqn:Hw; [discriminate|].
  intros [Hp Ht]%andb_prop. exists workers. split; [reflexivity|].
  apply parallel_start_ok. exists workers. by repeat split.
Qed.

Lemma next_fresh_parallel (ordered : bool) (f : callable) (its : list iterable)
    (kw : kwargs) (t t1 : trace) (pool : nat) (rs : list (exn + B)) :
  parallel_start pf ordered f its kw t = (inr (pool, rs), t1) ->
  next pf (ParFresh ordered f its kw) t = next pf (ParLoop pool rs) t1.
Proof. intros H. simpl. by rewrite H. Qed.

Lemma next_fresh_sequential (f : callable) (its : list iterable)
    (kw : kwargs) (t t1 : trace) (tasks : list (list A)) :
  sequential_start (E:=E) pf its kw t = (inr tasks, t1) ->
  next pf (SeqFresh f its kw) t = next pf (SeqLoop f tasks) t1.
Proof. intros H. simpl. by rewrite H. Qed.

(** Two generators that answer the next request alike are consumed alike. *)
Lemma drain_same_next (g g' : generator) (t t' : trace) (fuel : nat) :
  next pf g t = next pf g' t' -> drain pf fuel g t = drain pf fuel g' t'.
Proof. intros H. destruct fuel; simpl; [reflexivity | by rewrite H]. Qed.

Lemma take_same_next (g g' : generator) (t t' : trace) (n : nat) :
  next pf g t = next pf g' t' -> take pf (S n) g t = take pf (S n) g' t'.
Proof. intros H. simpl. by rewrite H. Qed.

(** [list] of a fresh parallel generator whose prologue completes. *)
Lemma py_list_parallel (ordered : bool) (f : callable) (its : list iterable)
    (kw : kwargs) (t t1 : trace) (pool : nat) (rs : list (exn + B)) :
  parallel_start pf ordered f its kw t = (inr (pool, rs), t1) ->
  py_list pf (ParFresh ordered f its kw) t =
  Some (collect rs,
        match collect rs with inr _ => t1 ++ [EvClear pool] | inl _ => t1 end).
Proof.
  intros H. unfold py_list.
  rewrite (drain_same_next _ _ _ _ _ (next_fresh_parallel _ _ _ _ _ _ _ _ H)).
  apply drain_parallel_loop.
  apply parallel_start_ok in H as (_ & _ & _ & _ & _ & -> & _).
  simpl. rewrite delivery_length, length_map. unfold tasks_of. lia.
Qed.

(** [list] of a fresh generator whose prologue raises. *)
Lemma py_list_parallel_raise (ordered : bool) (f : callable) (its : list iterable)
    (kw : kwargs) (t t1 : trace) (e : exn) :
  parallel_start pf ordered f its kw t = (inl e, t1) ->
  py_list pf (ParFresh ordered f its kw) t = Some (inl e, t1).
Proof. intros H. unfold py_list. simpl. by rewrite H. Qed.

Lemma py_list_sequential_raise (f : callable) (its : list iterable)
    (kw : kwargs) (t t1 : trace) (e : exn) :
  sequential_start pf its kw t = (inl e, t1) ->
  py_list pf (SeqFresh f its kw) t = Some (inl e, t1).
Proof. intros H. unfold py_list. simpl. by rewrite H. Qed.

(** [list] of a fresh sequential generator whose prologue completes. *)
Lemma py_list_sequential (f : callable) (its : list iterable)
    (kw : kwargs) (t t1 : trace) (tasks : list (list A)) :
  sequential_start (E:=E) pf its kw t = (inr tasks, t1) ->
  py_list pf (SeqFresh f its kw) t = Some (comprehension f tasks, t1).
Proof.
  intros H. unfold py_list.
  rewrite (drain_same_next _ _ _ _ _ (next_fresh_sequential _ _ _ _ _ _ H)).
  apply drain_sequential_loop.
  apply sequential_start_ok in H as (_ & _ & _ & _ & -> & _).
  simpl. unfold tasks_of. lia.
Qed.

(** [list] always comes to an end: the fuel it is given suffices. *)
Lemma py_list_total (g : generator) (t : trace) : is_Some (py_list pf g t).
Proof.
  destruct g as [o f its kw | pool rs | f its kw | f tasks |].
  - destruct (parallel_start pf o f its kw t) as [[e|[pool rs]] t1] eqn:H.
    + by rewrite (py_list_parallel_raise _ _ _ _ _ _ _ H).
    + by rewrite (py_list_parallel _ _ _ _ _ _ _ _ H).
  - unfold py_list. rewrite drain_parallel_loop by (simpl; lia). done.
  - destruct (sequential_start (E:=E) pf its kw t) as [[e|tasks] t1] eqn:H.
    + by rewrite (py_list_sequential_raise _ _ _ _ _ _ H).
    + by rewrite (py_list_sequential _ _ _ _ _ _ H).
  - unfold py_list. rewrite drain_sequential_loop by (simpl; lia). done.
  - done.
Qed.

Lemma known_lengths_sized (its : list iterable) :
  Exists (fun it => sized it = true) its ->
  exists n, py_min (known_lengths its) = Some n.
Proof.
  intros Hs. destruct (py_min (known_lengths its)) as [n|] eqn:Hn; [by exists n|].
  exfalso. apply py_min_None in Hn.
  apply (proj1 (Forall_Exists_neg _ _)) in Hs; [done|].
  unfold known_lengths in Hn. apply fmap_nil_inv in Hn.
  clear -Hn. induction its as [|it its IH]; [constructor|].
  rewrite filter_cons in Hn. destruct (sized it) eqn:Hit; simpl in Hn; [discriminate|].
  constructor; [congruence | by apply IH].
Qed.

(** A sequential call with a sized iterable, no [total] option and options
    that tqdm accepts completes its prologue. *)
Lemma sequential_ready_start (its : list iterable) (kw : kwargs) (t : trace) :
  Exists (fun it => sized it = true) its ->
  kw !! "total"%string = None ->
  tqdm_accepts pf (min_or_none (known_lengths its)) kw = true ->
  exists n,
    py_min (known_lengths its) = Some n
    /\ sequential_start (E:=E) pf its kw t =
       (inr (tasks_of its), t ++ len_events 0 its ++ [EvTqdm (VInt (Z.of_nat n)) kw]).
Proof.
  intros (n & Hn)%known_lengths_sized Hk Ht.
  unfold min_or_none in Ht. rewrite Hn in Ht.
  exists n. split; [exact Hn|]. apply sequential_start_ok. by exists n.
Qed.

End Consumption.

(** ** Ordered results *)

Section OrderedResults.
Context {A B E : Type}.
Variable pf : platform.

Local Abbreviation callable := (callable A B E).
Local Abbreviation iterable := (iterable A).


End OrderedResults.



(** ** Unordered results *)

Section UnorderedResults.
Context {A B E : Type}.
Variable pf : platform.

Local Abbreviation exn := (exn E).
Local Abbreviation callable := (callable A B E).
Local Abbreviation iterable := (iterable A).
Local Abbreviation ParLoop := (ParLoop (A:=A) (B:=B) (E:=E)).

(** Requesting one element more than the loop of [_parallel] holds. *)
Lemma take_parallel_exhaust (pool : nat) (vs : list B) (t : trace) :
  take pf (S (length vs)) (ParLoop pool (map inr vs)) t =
  (map Yield vs ++ [StopIteration], Closed, t ++ [EvClear pool]).
Proof.
  replace (S (length vs)) with (length vs + 1)%nat by lia.
  rewrite take_app.
  rewrite <- (app_nil_r (map inr vs)) at 1.
  by rewrite take_parallel_loop.
Qed.

(** A rearrangement of results that are all values is a rearrangement of
    the values. *)
Lemma collect_permutation (rs rs' : list (exn + B)) (vs : list B) :
  collect rs = inr vs -> rs' ≡ₚ rs -> exists l, rs' = map inr l /\ l ≡ₚ vs.
Proof.
  intros Hrs Hperm. apply collect_inr_inv in Hrs as ->.
  apply Permutation_map_inv in Hperm as (l & -> & Hl).
  exists l. split; [reflexivity | by symmetry].
Qed.

(** C2.  When the function raises on no task, so that
    [[f(x) for x in xs]] is a list [vs], [p_umap] returns a permutation of
    [vs], and [p_uimap] requested to exhaustion yields the items of a
    permutation of [vs] and then stops: every result appears exactly once,
    in an order that the pool decides. *)
Theorem unordered_maps_return_permutation (f : callable) (xs : iterable)
    (more : list iterable) (kw : kwargs) (t : trace) (vs : list B) :
  parallel_ready (E:=E) pf (xs :: more) kw = true ->
  comprehension f (tasks_of (xs :: more)) = inr vs ->
  (exists l, fst <$> p_umap pf f (xs :: more) kw t = Some (inr l) /\ l ≡ₚ vs)
  /\ (exists l,
        fst (fst (take pf (S (length vs))
                    (fst (p_uimap f (xs :: more) kw t))
                    (snd (p_uimap f (xs :: more) kw t))))
        = map Yield l ++ [StopIteration]
        /\ l ≡ₚ vs).
Proof.
  intros Hready Hvs.
  destruct (parallel_ready_start pf false f _ _ t Hready) as (w & _ & Hstart).
  destruct (collect_permutation _ (delivery pf false (map (invoke f) (tasks_of (xs :: more))))
              _ Hvs (delivery_perm pf false _)) as (l & Hl & Hperm).
  rewrite Hl in Hstart. split; exists l; (split; [|exact Hperm]).
  - unfold p_umap. rewrite (py_list_parallel _ _ _ _ _ _ _ _ _ Hstart).
    by rewrite collect_inr.
  - unfold p_uimap. cbn [fst snd].
    rewrite (take_same_next _ _ _ _ _ _ (next_fresh_parallel _ _ _ _ _ _ _ _ _ Hstart)).
    rewrite <- (Permutation_length Hperm).
    by rewrite take_parallel_exhaust.
Qed.

End UnorderedResults.

(** [p_umap(lambda x: x * 2, [1, 2, 3])] where the last task finishes first. *)
Lemma unordered_maps_return_permutation_witness :
  (exists l, fst <$> p_umap workstation double [Iterable true [1; 2; 3]] ∅ []
             = Some (inr l) /\ l ≡ₚ [2; 4; 6])
  /\ (exists l,
        fst (fst (take workstation 4
                    (fst (p_uimap double [Iterable true [1; 2; 3]] ∅ []))
                    (snd (p_uimap double [Iterable true [1; 2; 3]] ∅ []))))
        = map Yield l ++ [StopIteration]
        /\ l ≡ₚ [2; 4; 6]).
Proof.
  apply (unordered_maps_return_permutation workstation double
           (Iterable true [1; 2; 3]) [] ∅ [] [2; 4; 6]); reflexivity.
Defined.

(** The order of an unordered map is the order of completion, not of input. *)
Example p_umap_completion_order :
  fst <$> p_umap workstation double [Iterable true [1; 2; 3]] ∅ []
  = Some (inr [6; 4; 2]).
Proof. reflexivity. Qed.

(** ** The total given to the progress display *)

Section DisplayTotal.
Context {A B E : Type}.
Variable pf : platform.

Local Abbreviation exn := (exn E).
Local Abbreviation callable := (callable A B E).
Local Abbreviation iterable := (iterable A).
Local Abbreviation ParLoop := (ParLoop (A:=A) (B:=B) (E:=E)).

Lemma display_totals_len_events (its : list iterable) (i : nat) :
  display_totals (len_events i its) = [].
Proof.
  revert i; induction its as [|it its IH]; intros i; simpl; [reflexivity|].
  destruct (sized it); simpl; apply IH.
Qed.






End DisplayTotal.



(** ** The number of workers *)



Section WorkerCount.
Context {A B E : Type}.
Variable pf : platform.

Local Abbreviation exn := (exn E).
Local Abbreviation callable := (callable A B E).
Local Abbreviation iterable := (iterable A).


End WorkerCount.



(** ** The length requirement of the sequential path *)

Section LengthRequirement.
Context {A B E : Type}.
Variable pf : platform.

Local Abbreviation exn := (exn E).
Local Abbreviation callable := (callable A B E).
Local Abbreviation iterable := (iterable A).






End LengthRequirement.


(** ** The number of items of a lazy map *)

Section LazyLength.
Context {A B E : Type}.
Variable pf : platform.

Local Abbreviation exn := (exn E).
Local Abbreviation callable := (callable A B E).
Local Abbreviation iterable := (iterable A).
Local Abbreviation ParLoop := (ParLoop (A:=A) (B:=B) (E:=E)).

Lemma comprehension_values (f : callable) (tasks : list (list A)) (vs : list B) :
  comprehension f tasks = inr vs -> Forall2 (fun task v => f task = inr v) tasks vs.
Proof.
  unfold comprehension. revert vs.
  induction tasks as [|task tasks IH]; intros vs; simpl.
  - intros [= <-]. constructor.
  - unfold invoke at 1. destruct (f task) as [e|v] eqn:Hf; [discriminate|].
    destruct (collect _) as [e|l]; [discriminate|].
    intros [= <-]. constructor; [exact Hf | by apply IH].
Qed.

(** Requesting one element more than the loop of [_sequential] has tasks. *)
Lemma take_sequential_exhaust (f : callable) (tasks : list (list A)) (vs : list B) (t : trace) :
  comprehension f tasks = inr vs ->
  take pf (S (length vs)) (SeqLoop f tasks) t =
  (map Yield vs ++ [StopIteration], Closed, t).
Proof.
  intros Hvs%comprehension_values.
  replace (S (length vs)) with (length vs + 1)%nat by lia.
  rewrite take_app.
  rewrite <- (app_nil_r tasks).
  by rewrite (take_sequential_loop pf f tasks vs [] t Hvs).
Qed.

Lemma tasks_of_length (its : list iterable) (n : nat) :
  py_min (map (fun it => length (items it)) its) = Some n ->
  length (tasks_of its) = n.
Proof.
  intros H. apply length_zip_star. by rewrite map_map.
Qed.

(** C6 (as amended).  For one or more finite iterables whose shortest has
    [n] items and a function that raises on none of the zipped tuples,
    [p_imap] and [p_uimap] requested to exhaustion yield exactly [n] items
    and then stop; so does [t_imap] when at least one iterable is sized and
    no [total] option is given. *)
Theorem lazy_maps_yield_shortest_length (f : callable) (xs : iterable)
    (more : list iterable) (kw : kwargs) (t : trace) (n : nat) (vs : list B) :
  py_min (map (fun it => length (items it)) (xs :: more)) = Some n ->
  comprehension f (tasks_of (xs :: more)) = inr vs ->
  (parallel_ready (E:=E) pf (xs :: more) kw = true ->
     (exists l,
        fst (fst (take pf (S n) (fst (p_imap f (xs :: more) kw t))
                    (snd (p_imap f (xs :: more) kw t))))
        = map Yield l ++ [StopIteration] /\ length l = n)
     /\ (exists l,
           fst (fst (take pf (S n) (fst (p_uimap f (xs :: more) kw t))
                       (snd (p_uimap f (xs :: more) kw t))))
           = map Yield l ++ [StopIteration] /\ length l = n))
  /\ (Exists (fun it => sized it = true) (xs :: more) ->
      kw !! "total"%string = None ->
      tqdm_accepts pf (min_or_none (known_lengths (xs :: more))) kw = true ->
      exists l,
        fst (fst (take pf (S n) (fst (t_imap f (xs :: more) kw t))
                    (snd (t_imap f (xs :: more) kw t))))
        = map Yield l ++ [StopIteration] /\ length l = n).
Proof.
  intros Hn Hvs.
  assert (Hlen : length vs = n).
  { rewrite <- (tasks_of_length _ _ Hn).
    apply comprehension_values in Hvs. symmetry. by eapply Forall2_length. }
  assert (Hpar : forall ordered,
            parallel_ready (E:=E) pf (xs :: more) kw = true ->
            exists l,
              fst (fst (take pf (S n) (ParFresh ordered f (xs :: more) kw) t))
              = map Yield l ++ [StopIteration] /\ length l = n).
  { intros ordered Hready.
    destruct (parallel_ready_start pf ordered f _ _ t Hready) as (w & _ & Hstart).
    destruct (collect_permutation _
                (delivery pf ordered (map (invoke f) (tasks_of (xs :: more))))
                _ Hvs (delivery_perm pf ordered _)) as (l & Hl & Hperm).
    rewrite Hl in Hstart. exists l.
    assert (Hll : length l = n) by (by rewrite Hperm).
    split; [|exact Hll].
    rewrite (take_same_next _ _ _ _ _ _ (next_fresh_parallel _ _ _ _ _ _ _ _ _ Hstart)).
    rewrite <- Hll. by rewrite take_parallel_exhaust. }
  split.
  - intros Hready. split; apply Hpar, Hready.
  - intros Hsized Htotal Htqdm. exists vs. split; [|exact Hlen].
    destruct (sequential_ready_start (E:=E) pf _ _ t Hsized Htotal Htqdm)
      as (m & _ & Hstart).
    unfold t_imap. cbn [fst snd].
    rewrite (take_same_next _ _ _ _ _ _ (next_fresh_sequential _ _ _ _ _ _ _ Hstart)).
    rewrite <- Hlen. by rewrite take_sequential_exhaust.
Qed.

End LazyLength.

(** Iterables of 3 and 4 items give 3 items, whichever lazy map is used. *)
Lemma lazy_maps_yield_shortest_length_witness :
  (exists l,
     fst (fst (take workstation 4
                 (fst (p_imap add [Iterable true [1; 2; 3]; Iterable false [10; 20; 30; 40]] ∅ []))
                 (snd (p_imap add [Iterable true [1; 2; 3]; Iterable false [10; 20; 30; 40]] ∅ []))))
     = map Yield l ++ [StopIteration] /\ length l = 3%nat)
  /\ (exists l,
        fst (fst (take workstation 4
                    (fst (t_imap add [Iterable true [1; 2; 3]; Iterable false [10; 20; 30; 40]] ∅ []))
                    (snd (t_imap add [Iterable true [1; 2; 3]; Iterable false [10; 20; 30; 40]] ∅ []))))
        = map Yield l ++ [StopIteration] /\ length l = 3%nat).
Proof.
  pose proof (lazy_maps_yield_shortest_length workstation add
                (Iterable true [1; 2; 3]) [Iterable false [10; 20; 30; 40]]
                ∅ [] 3 [11; 22; 33] eq_refl eq_refl) as [Hpar Hseq].
  split.
  - apply Hpar. reflexivity.
  - apply Hseq; [left; reflexivity | reflexivity | reflexivity].
Defined.

(** C6, counterexample: [t_imap] over a generator of three items yields no
    item: the first request raises the [ValueError] of [min]. *)
Lemma t_imap_unsized_counterexample :
  fst (fst (take workstation 4
              (fst (t_imap double [Iterable false [1; 2; 3]] ∅ []))
              (snd (t_imap double [Iterable false [1; 2; 3]] ∅ []))))
  = [Raise ValueError_min_empty; StopIteration; StopIteration; StopIteration].
Proof. reflexivity. Qed.

(** ** Exceptions of the mapped function *)

Section ErrorPropagation.
Context {A B E : Type}.
Variable pf : platform.

Local Abbreviation exn := (exn E).
Local Abbreviation callable := (callable A B E).
Local Abbreviation iterable := (iterable A).
Local Abbreviation ParLoop := (ParLoop (A:=A) (B:=B) (E:=E)).





End ErrorPropagation.


(** ** The life of the pool *)

Section PoolLifecycle.
Context {A B E : Type}.
Variable pf : platform.

Local Abbreviation exn := (exn E).
Local Abbreviation callable := (callable A B E).
Local Abbreviation iterable := (iterable A).
Local Abbreviation generator := (generator (A:=A) (B:=B) (E:=E)).
Local Abbreviation ParLoop := (ParLoop (A:=A) (B:=B) (E:=E)).








(** In its loop, [_parallel] clears the pool when, and only when, the
    iteration comes to its end. *)
Lemma take_parallel_loop_clear (pool : nat) (rs : list (exn + B)) (k : nat) (t : trace) :
  snd (take pf k (ParLoop pool rs) t)
  = t ++ (if exhausted (fst (fst (take pf k (ParLoop pool rs) t)))
          then [EvClear pool] else []).
Proof.
  revert k t; induction rs as [|[e|v] rs IH]; intros [|k] t;
    try (simpl; by rewrite app_nil_r).
  - simpl. by rewrite take_closed.
  - simpl. rewrite take_closed. simpl. by rewrite app_nil_r.
  - change (take pf (S k) (ParLoop pool (inr v :: rs)) t)
      with (let '(os, g'', t'') := take pf k (ParLoop pool rs) t in
            (Yield v :: os, g'', t'')).
    specialize (IH k t).
    by destruct (take pf k (ParLoop pool rs) t) as [[os g''] t''].
Qed.


End PoolLifecycle.


(** Three requests of [p_imap] over three items leave the pool open; the
    fourth, which ends the iteration, clears it. *)
Example p_imap_abandoned_keeps_pool :
  snd (take workstation 3 (ParFresh true double [Iterable true [1; 2; 3]] ∅) [])
  = [EvCpuCount; EvLen 0; EvPool 0 (VInt 8); EvMap 0 true; EvTqdm (VInt 3) ∅]
  /\ snd (take workstation 4 (ParFresh true double [Iterable true [1; 2; 3]] ∅) [])
     = [EvCpuCount; EvLen 0; EvPool 0 (VInt 8); EvMap 0 true; EvTqdm (VInt 3) ∅;
        EvClear 0].
Proof. split; reflexivity. Qed.

(** When the function raises, [p_map] does not return and the pool it
    created is not cleared. *)
Example p_map_raise_keeps_pool :
  p_map workstation fails_on_three [Iterable true [1; 2; 3; 4]] ∅ []
  = Some (inl (FunctionError "ValueError"%string),
          [EvCpuCount; EvLen 0; EvPool 0 (VInt 8); EvMap 0 true; EvTqdm (VInt 4) ∅]).
Proof. reflexivity. Qed.

(** Two calls in a row create two different pools. *)
Example successive_calls_create_distinct_pools :
  (filter is_pool ∘ snd) <$>
    (p_map workstation double [Iterable true [1; 2; 3]] ∅ [] ≫= fun r =>
     p_umap workstation double [Iterable true [1; 2; 3]] ∅ (snd r))
  = Some [EvPool 0 (VInt 8); EvPool 1 (VInt 8)].
Proof. reflexivity. Qed.

(** ** The options given to the progress display *)

Section OptionForwarding.
Context {A B E : Type}.
Variable pf : platform.

Local Abbreviation exn := (exn E).
Local Abbreviation callable := (callable A B E).
Local Abbreviation iterable := (iterable A).




End OptionForwarding.



(** ** Laziness of the generator entry points *)

Section Laziness.
Context {A B E : Type}.
Variable pf : platform.

Local Abbreviation exn := (exn E).
Local Abbreviation callable := (callable A B E).
Local Abbreviation iterable := (iterable A).


End Laziness.


(** * Further properties of the generators and of the two prologues *)

(** ** Requests, one by one and all at once *)

Section GeneratorFacts.
Context {A B E : Type}.
Variable pf : platform.

Local Abbreviation exn := (exn E).
Local Abbreviation callable := (callable A B E).
Local Abbreviation iterable := (iterable A).
Local Abbreviation generator := (generator (A:=A) (B:=B) (E:=E)).
Local Abbreviation outcome := (outcome (B:=B) (E:=E)).

Lemma take_S (n : nat) (g : generator) (t : trace) :
  take pf (S n) g t =
  let '(o, g', t') := next pf g t in
  let '(os, g'', t'') := take pf n g' t' in
  (o :: os, g'', t'').
Proof. reflexivity. Qed.

(** A request that does not yield finishes the generator. *)
Lemma next_end_closed (g g' : generator) (t t' : trace) (o : outcome) :
  next pf g t = (o, g', t') -> is_end o = true -> g' = Closed.
Proof.
  destruct g as [ordered f its kw | pool rs | f its kw | f tasks |]; simpl.
  - destruct (parallel_start pf ordered f its kw t) as [[e|[pool rs]] t1];
      [by intros [= <- <- <-]|].
    destruct rs as [|[e|v] rs]; simpl; intros [= <- <- <-]; done.
  - destruct rs as [|[e|v] rs]; simpl; intros [= <- <- <-]; done.
  - destruct (sequential_start pf its kw t) as [[e|tasks] t1];
      [by intros [= <- <- <-]|].
    destruct tasks as [|task tasks]; simpl; [by intros [= <- <- <-]|].
    destruct (invoke f task); intros [= <- <- <-]; done.
  - destruct tasks as [|task tasks]; simpl; [by intros [= <- <- <-]|].
    destruct (invoke f task); intros [= <- <- <-]; done.
  - by intros [= <- <- <-].
Qed.

(** A request that yields leaves one item less to come. *)
Lemma next_yield_remaining (g g' : generator) (t t' : trace) (item : B) :
  next pf g t = (Yield item, g', t') -> remaining g = S (remaining g').
Proof.
  destruct g as [ordered f its kw | pool rs | f its kw | f tasks |]; simpl.
  - destruct (parallel_start pf ordered f its kw t) as [[e|[pool rs]] t1] eqn:Hstart;
      [discriminate|].
    apply parallel_start_ok in Hstart as (_ & _ & _ & _ & _ & Hrs & _).
    assert (Hlen : length rs = length (zip_star (map items its))).
    { rewrite Hrs, delivery_length, length_map. reflexivity. }
    rewrite <- Hlen.
    destruct rs as [|[e|v] rs']; simpl; intros [= <- <- <-]; done.
  - destruct rs as [|[e|v] rs]; simpl; intros [= <- <- <-]; done.
  - destruct (sequential_start pf its kw t) as [[e|tasks] t1] eqn:Hstart;
      [discriminate|].
    apply sequential_start_ok in Hstart as (_ & _ & _ & _ & Htasks & _).
    unfold tasks_of in Htasks. rewrite <- Htasks.
    destruct tasks as [|task tasks]; simpl; [discriminate|].
    destruct (invoke f task); intros [= <- <- <-]; done.
  - destruct tasks as [|task tasks]; simpl; [discriminate|].
    destruct (invoke f task); intros [= <- <- <-]; done.
  - discriminate.
Qed.

Lemma yields_replicate_stop (n : nat) :
  yields (replicate n (StopIteration : outcome)) = [].
Proof. induction n as [|n IH]; [reflexivity | exact IH]. Qed.

Lemma yields_end (o : outcome) (os : list outcome) :
  is_end o = true -> yields (o :: os) = yields os.
Proof. by destruct o. Qed.

(** However many requests are made, no more items come than remain. *)
Lemma take_yields_remaining (n : nat) (g : generator) (t : trace) :
  (length (yields (fst (fst (take pf n g t)))) <= remaining g)%nat.
Proof.
  revert g t; induction n as [|n IH]; intros g t; simpl; [lia|].
  destruct (next pf g t) as [[o g1] t1] eqn:Hnext.
  specialize (IH g1 t1).
  destruct (take pf n g1 t1) as [[os g2] t2] eqn:Htake. cbn [fst] in *.
  destruct o as [item | | e].
  - apply next_yield_remaining in Hnext.
    change (yields (Yield item :: os)) with (item :: yields os).
    simpl length. lia.
  - apply next_end_closed in Hnext as ->; [|done].
    rewrite take_closed in Htake. injection Htake as <- _ _.
    rewrite yields_end, yields_replicate_stop by done. simpl. lia.
  - apply next_end_closed in Hnext as ->; [|done].
    rewrite take_closed in Htake. injection Htake as <- _ _.
    rewrite yields_end, yields_replicate_stop by done. simpl. lia.
Qed.

(** What [list] obtains is what the requests give one by one. *)
Lemma drain_take (fuel : nat) (g : generator) (t t' : trace) (r : exn + list B) :
  drain pf fuel g t = Some (r, t') ->
  exists vs o,
    is_end o = true
    /\ take pf (S (length vs)) g t = (map Yield vs ++ [o], Closed, t')
    /\ r = result_of vs o.
Proof.
  revert g t t' r; induction fuel as [|fuel IH]; intros g t t' r Hdrain;
    [discriminate|].
  simpl in Hdrain. destruct (next pf g t) as [[o g1] t1] eqn:Hnext.
  destruct o as [item | | e].
  - destruct (drain pf fuel g1 t1) as [[r1 t2]|] eqn:Hrest; [|discriminate].
    destruct (IH _ _ _ _ Hrest) as (vs & o & Ho & Htake & Hr).
    exists (item :: vs), o. split; [exact Ho|].
    simpl length. rewrite (take_S (S (length vs)) g t), Hnext, Htake. subst r1.
    destruct o as [? | | e]; [discriminate | |]; simpl in *;
      injection Hdrain as <- <-; done.
  - injection Hdrain as <- <-. exists [], StopIteration.
    apply next_end_closed in Hnext as Hg; [|done]. subst g1.
    simpl length. by rewrite (take_S 0 g t), Hnext.
  - injection Hdrain as <- <-. exists [], (Raise e).
    apply next_end_closed in Hnext as Hg; [|done]. subst g1.
    simpl length. by rewrite (take_S 0 g t), Hnext.
Qed.

(** What the requests give one by one is what [list] obtains. *)
Lemma take_drain (vs : list B) (o : outcome) (g g' : generator) (t t' : trace)
    (fuel : nat) :
  take pf (S (length vs)) g t = (map Yield vs ++ [o], g', t') ->
  is_end o = true ->
  (length vs < fuel)%nat ->
  drain pf fuel g t = Some (result_of vs o, t').
Proof.
  revert g t fuel; induction vs as [|v vs IH]; intros g t [|fuel] Htake Ho Hlt;
    try (simpl in Hlt; lia).
  - simpl in Htake. destruct (next pf g t) as [[o1 g1] t1] eqn:Hnext.
    injection Htake as -> _ <-. simpl. rewrite Hnext.
    by destruct o.
  - simpl length in Htake. rewrite (take_S (S (length vs)) g t) in Htake.
    destruct (next pf g t) as [[o1 g1] t1] eqn:Hnext.
    destruct (take pf (S (length vs)) g1 t1) as [[os g2] t2] eqn:Htake1.
    injection Htake as -> -> <- <-.
    simpl in Hlt. simpl. rewrite Hnext.
    rewrite (IH g1 t1 fuel Htake1 Ho ltac:(lia)).
    by destruct o.
Qed.

Lemma yields_items (vs : list B) (rest : list outcome) :
  yields (map Yield vs ++ rest) = vs ++ yields rest.
Proof.
  induction vs as [|v vs IH]; [reflexivity|].
  change (yields (Yield v :: (map Yield vs ++ rest)) = v :: (vs ++ yields rest)).
  change (yields (Yield v :: (map Yield vs ++ rest)))
    with (v :: yields (map Yield vs ++ rest)).
  by rewrite IH.
Qed.

(** [list] of any generator, in terms of requests made one by one. *)
Lemma py_list_as_requests (g : generator) (t t' : trace) :
  (forall vs,
     py_list pf g t = Some (inr vs, t')
     <-> take pf (S (length vs)) g t = (map Yield vs ++ [StopIteration], Closed, t'))
  /\ (forall e,
        py_list pf g t = Some (inl e, t')
        <-> exists vs,
              take pf (S (length vs)) g t = (map Yield vs ++ [Raise e], Closed, t')).
Proof.
  assert (Hfuel : forall vs o g' u,
            take pf (S (length vs)) g t = (map Yield vs ++ [o], g', u) ->
            (length vs < S (remaining g))%nat).
  { intros vs o g' u Htake.
    pose proof (take_yields_remaining (S (length vs)) g t) as Hle.
    rewrite Htake in Hle. cbn [fst] in Hle.
    rewrite yields_items, length_app in Hle. lia. }
  split.
  - intros vs. split.
    + intros (vs' & o & Ho & Htake & Hr)%drain_take.
      destruct o as [? | | e]; [discriminate | | discriminate].
      by injection Hr as ->.
    + intros Htake.
      exact (take_drain vs StopIteration g Closed t t' _ Htake eq_refl (Hfuel _ _ _ _ Htake)).
  - intros e. split.
    + intros (vs' & o & Ho & Htake & Hr)%drain_take.
      destruct o as [? | | e']; [discriminate | discriminate |].
      injection Hr as ->. by exists vs'.
    + intros (vs & Htake).
      exact (take_drain vs (Raise e) g Closed t t' _ Htake eq_refl (Hfuel _ _ _ _ Htake)).
Qed.

(** X1.  An eager call returns the list [vs] exactly when the requests made
    one by one of the generator of the lazy call yield the items of [vs] and
    then stop, and it raises [e] exactly when those requests yield some items
    and then raise [e]; the collaborators are asked the same in both cases. *)
Theorem eager_is_drained_lazy (f : callable) (its : list iterable)
    (kw : kwargs) (t t' : trace) :
  (forall ordered : bool,
     let eager := if ordered then p_map pf f its kw t else p_umap pf f its kw t in
     let lazy := if ordered then p_imap f its kw t else p_uimap f its kw t in
     (forall vs,
        eager = Some (inr vs, t')
        <-> take pf (S (length vs)) (fst lazy) (snd lazy)
            = (map Yield vs ++ [StopIteration], Closed, t'))
     /\ (forall e,
           eager = Some (inl e, t')
           <-> exists vs,
                 take pf (S (length vs)) (fst lazy) (snd lazy)
                 = (map Yield vs ++ [Raise e], Closed, t')))
  /\ (forall vs,
        t_map pf f its kw t = Some (inr vs, t')
        <-> take pf (S (length vs)) (fst (t_imap f its kw t)) (snd (t_imap f its kw t))
            = (map Yield vs ++ [StopIteration], Closed, t'))
  /\ (forall e,
        t_map pf f its kw t = Some (inl e, t')
        <-> exists vs,
              take pf (S (length vs)) (fst (t_imap f its kw t)) (snd (t_imap f its kw t))
              = (map Yield vs ++ [Raise e], Closed, t')).
Proof.
  split; [|exact (py_list_as_requests (SeqFresh f its kw) t t')].
  intros [|]; exact (py_list_as_requests (ParFresh _ f its kw) t t').
Qed.

(** X2.  Once a request has ended in [StopIteration] or in an exception,
    every later request gives [StopIteration] and asks nothing of the
    collaborators: nothing is retried after a failure. *)
Theorem finished_generator_stays_finished (g g' : generator) (t t' : trace)
    (o : outcome) (n : nat) :
  next pf g t = (o, g', t') ->
  is_end o = true ->
  take pf n g' t' = (replicate n StopIteration, Closed, t').
Proof.
  intros Hnext Ho. rewrite (next_end_closed _ _ _ _ _ Hnext Ho).
  apply take_closed.
Qed.

Lemma zip_star_length_le (its : list (list A)) (xs : list A) :
  xs ∈ its -> (length (zip_star its) <= length xs)%nat.
Proof.
  induction its as [|ys rest IH]; [by intros ?%elem_of_nil|].
  destruct rest as [|zs rest'].
  - intros ->%list_elem_of_singleton. simpl. by rewrite length_map.
  - change (zip_star (ys :: zs :: rest')) with (zip_cons ys (zip_star (zs :: rest'))).
    rewrite length_zip_cons.
    intros [-> | Hin]%elem_of_cons; [lia|].
    specialize (IH Hin). lia.
Qed.

(** X3.  However many elements are requested, a lazy map yields no more
    items than any one of the iterables has, and an eager map returns no
    longer list, whether or not the function raises. *)
Theorem maps_never_exceed_an_iterable (f : callable) (its : list iterable)
    (kw : kwargs) (t : trace) (it : iterable) :
  it ∈ its ->
  (forall (ordered : bool) n,
     let lazy := if ordered then p_imap f its kw t else p_uimap f its kw t in
     (length (yields (fst (fst (take pf n (fst lazy) (snd lazy)))))
      <= length (items it))%nat)
  /\ (forall n,
        (length (yields (fst (fst (take pf n (fst (t_imap f its kw t))
                                     (snd (t_imap f its kw t))))))
         <= length (items it))%nat)
  /\ (forall (ordered : bool) vs t',
        (if ordered then p_map pf f its kw t else p_umap pf f its kw t)
        = Some (inr vs, t') ->
        (length vs <= length (items it))%nat)
  /\ (forall vs t',
        t_map pf f its kw t = Some (inr vs, t') ->
        (length vs <= length (items it))%nat).
Proof.
  intros Hin.
  assert (Hshort : (length (zip_star (map items its)) <= length (items it))%nat).
  { apply zip_star_length_le, list_elem_of_fmap. by exists it. }
  assert (Hlazy : forall (g : generator) n,
            remaining g = length (zip_star (map items its)) ->
            (length (yields (fst (fst (take pf n g t)))) <= length (items it))%nat).
  { intros g n Hg. pose proof (take_yields_remaining n g t). lia. }
  assert (Heager : forall (g : generator) vs t',
            remaining g = length (zip_star (map items its)) ->
            py_list pf g t = Some (inr vs, t') ->
            (length vs <= length (items it))%nat).
  { intros g vs t' Hg Hlist.
    apply (proj1 (py_list_as_requests g t t')) in Hlist.
    pose proof (take_yields_remaining (S (length vs)) g t) as Hle.
    rewrite Hlist in Hle. cbn [fst] in Hle.
    rewrite yields_items, length_app in Hle. lia. }
  repeat apply conj.
  - intros [|] n; by apply Hlazy.
  - intros n. by apply Hlazy.
  - intros [|] vs t'; by apply Heager.
  - intros vs t'. by apply Heager.
Qed.

End GeneratorFacts.

(** [p_map] and [p_imap] over 1, 2, 3. *)
Lemma eager_is_drained_lazy_witness :
  take workstation 4 (fst (p_imap double [Iterable true [1; 2; 3]] ∅ []))
    (snd (p_imap double [Iterable true [1; 2; 3]] ∅ []))
  = (map Yield [2; 4; 6] ++ [StopIteration], Closed,
     [EvCpuCount; EvLen 0; EvPool 0 (VInt 8); EvMap 0 true; EvTqdm (VInt 3) ∅;
      EvClear 0]).
Proof.
  apply (proj1 (proj1 (proj1 (eager_is_drained_lazy workstation double
                                [Iterable true [1; 2; 3]] ∅ [] _) true) [2; 4; 6])).
  reflexivity.
Defined.

(** After the exception on the third input, [p_imap] only stops. *)
Lemma finished_generator_stays_finished_witness :
  take workstation 2 Closed
    [EvCpuCount; EvLen 0; EvPool 0 (VInt 8); EvMap 0 true; EvTqdm (VInt 4) ∅]
  = ([StopIteration; StopIteration], Closed (A:=Z) (B:=Z) (E:=string),
     [EvCpuCount; EvLen 0; EvPool 0 (VInt 8); EvMap 0 true; EvTqdm (VInt 4) ∅]).
Proof.
  apply (finished_generator_stays_finished workstation
           (ParLoop 0 [inl (FunctionError "ValueError"%string); inr 16])
           Closed
           [EvCpuCount; EvLen 0; EvPool 0 (VInt 8); EvMap 0 true; EvTqdm (VInt 4) ∅]
           [EvCpuCount; EvLen 0; EvPool 0 (VInt 8); EvMap 0 true; EvTqdm (VInt 4) ∅]
           (Raise (FunctionError "ValueError"%string)) 2);
    reflexivity.
Defined.

(** Iterables of three and four items: at most three items. *)
Lemma maps_never_exceed_an_iterable_witness :
  le (length (yields (fst (fst (take workstation 9
             (fst (p_uimap add [Iterable true [1; 2; 3]; Iterable false [10; 20; 30; 40]] ∅ []))
             (snd (p_uimap add [Iterable true [1; 2; 3]; Iterable false [10; 20; 30; 40]] ∅ [])))))))
     3%nat.
Proof.
  apply (proj1 (maps_never_exceed_an_iterable workstation add
                  [Iterable true [1; 2; 3]; Iterable false [10; 20; 30; 40]] ∅ []
                  (Iterable true [1; 2; 3]) ltac:(left)) false 9%nat).
Defined.

(** ** Partial consumption and the events of a call *)

Section CallFacts.
Context {A B E : Type}.
Variable pf : platform.

Local Abbreviation exn := (exn E).
Local Abbreviation callable := (callable A B E).
Local Abbreviation iterable := (iterable A).
Local Abbreviation generator := (generator (A:=A) (B:=B) (E:=E)).
Local Abbreviation outcome := (outcome (B:=B) (E:=E)).
Local Abbreviation ParLoop := (ParLoop (A:=A) (B:=B) (E:=E)).

Lemma invoke_values (f : callable) (pre : list (list A)) (vs : list B) :
  Forall2 (fun task v => f task = inr v) pre vs ->
  map (invoke f) pre = map inr vs.
Proof.
  induction 1 as [|task v pre vs Hf _ IH]; simpl; [reflexivity|].
  unfold invoke at 1. by rewrite Hf, IH.
Qed.

(** X4.  The ordered lazy maps deliver in input order as they are consumed:
    when the function returns [vs] on the first tasks, the first requests of
    [p_imap] and of [t_imap] yield [vs], whatever the function does on the
    tasks that follow. *)
Theorem ordered_lazy_maps_yield_prefix (f : callable) (its : list iterable)
    (kw : kwargs) (t : trace) (pre post : list (list A)) (vs : list B) :
  tasks_of its = pre ++ post ->
  Forall2 (fun task v => f task = inr v) pre vs ->
  (parallel_ready (E:=E) pf its kw = true ->
   fst (fst (take pf (length vs) (fst (p_imap f its kw t)) (snd (p_imap f its kw t))))
   = map Yield vs)
  /\ (Exists (fun it => sized it = true) its ->
      kw !! "total"%string = None ->
      tqdm_accepts pf (min_or_none (known_lengths its)) kw = true ->
      fst (fst (take pf (length vs) (fst (t_imap f its kw t)) (snd (t_imap f its kw t))))
      = map Yield vs).
Proof.
  intros Htasks Hvs. unfold p_imap, t_imap. cbn [fst snd].
  destruct vs as [|v vs']; [by split|].
  set (vs := v :: vs') in *. change (length vs) with (S (length vs')).
  split.
  - intros Hready.
    destruct (parallel_ready_start pf true f _ _ t Hready) as (w & _ & Hstart).
    rewrite (take_same_next _ _ _ _ _ _ (next_fresh_parallel _ _ _ _ _ _ _ _ _ Hstart)).
    unfold delivery. rewrite Htasks, map_app, (invoke_values _ _ _ Hvs).
    change (S (length vs')) with (length vs).
    by rewrite take_parallel_loop.
  - intros Hsized Htotal Htqdm.
    destruct (sequential_ready_start (E:=E) pf _ _ t Hsized Htotal Htqdm)
      as (n & _ & Hstart).
    rewrite (take_same_next _ _ _ _ _ _ (next_fresh_sequential _ _ _ _ _ _ _ Hstart)).
    rewrite Htasks. change (S (length vs')) with (length vs).
    by rewrite (take_sequential_loop pf f pre vs post _ Hvs).
Qed.

Lemma len_events_sequential (its : list iterable) (i : nat) :
  Forall (fun ev => is_parallel_event ev = false) (len_events i its).
Proof.
  revert i; induction its as [|it rest IH]; intros i; simpl; [constructor|].
  destruct (sized it); [constructor; [reflexivity|]|]; apply IH.
Qed.

(** The prologue of [_sequential] asks for lengths and for a display only. *)
Lemma sequential_start_events (its : list iterable) (kw : kwargs) (t : trace) :
  exists new,
    snd (sequential_start (E:=E) pf its kw t) = t ++ new
    /\ Forall (fun ev => is_parallel_event ev = false) new.
Proof.
  unfold sequential_start, bind. rewrite sized_lengths_run.
  destruct (py_min (known_lengths its)) as [n|].
  2:{ exists (len_events 0 its). split; [reflexivity | apply len_events_sequential]. }
  unfold tqdm, bind, emit, ret, raise.
  destruct (kw !! "total"%string).
  { exists (len_events 0 its). split; [reflexivity | apply len_events_sequential]. }
  exists (len_events 0 its ++ [EvTqdm (VInt (Z.of_nat n)) kw]).
  split.
  - destruct (tqdm_accepts pf _ kw); simpl; by rewrite <- app_assoc.
  - apply Forall_app. split; [apply len_events_sequential | by repeat constructor].
Qed.

Lemma take_sequential_loop_trace (f : callable) (tasks : list (list A)) (n : nat) (t : trace) :
  snd (take pf n (SeqLoop f tasks) t) = t.
Proof.
  revert tasks t; induction n as [|n IH]; intros tasks t; [reflexivity|].
  destruct tasks as [|task tasks]; simpl.
  - by rewrite take_closed.
  - destruct (invoke f task) as [e|v].
    + by rewrite take_closed.
    + specialize (IH tasks t).
      by destruct (take pf n (SeqLoop f tasks) t) as [[os g] t'].
Qed.

(** The events of any number of requests of a fresh sequential generator. *)
Lemma take_sequential_events (f : callable) (its : list iterable) (kw : kwargs)
    (n : nat) (t : trace) :
  exists new,
    snd (take pf n (SeqFresh f its kw) t) = t ++ new
    /\ Forall (fun ev => is_parallel_event ev = false) new.
Proof.
  destruct n as [|n]; [exists []; by rewrite app_nil_r|].
  destruct (sequential_start_events its kw t) as (new & Hnew & Hall).
  exists new. split; [|exact Hall].
  destruct (sequential_start pf its kw t) as [[e|tasks] t1] eqn:Hstart;
    cbn [snd] in Hnew; subst t1.
  - simpl. rewrite Hstart. by rewrite take_closed.
  - rewrite (take_same_next _ _ _ _ _ _ (next_fresh_sequential _ _ _ _ _ _ _ Hstart)).
    apply take_sequential_loop_trace.
Qed.

(** X5.  The sequential entry points never ask for the number of CPUs and
    never create, use or clear a pool: whatever the arguments and however
    far the iteration goes, they only take lengths and open a display. *)
Theorem sequential_maps_use_no_pool (f : callable) (its : list iterable)
    (kw : kwargs) (t : trace) :
  (forall n,
     exists new,
       snd (take pf n (fst (t_imap f its kw t)) (snd (t_imap f its kw t))) = t ++ new
       /\ Forall (fun ev => is_parallel_event ev = false) new)
  /\ (forall r t',
        t_map pf f its kw t = Some (r, t') ->
        exists new,
          t' = t ++ new /\ Forall (fun ev => is_parallel_event ev = false) new).
Proof.
  split.
  - intros n. apply take_sequential_events.
  - intros r t' (vs & o & _ & Htake & _)%drain_take.
    destruct (take_sequential_events f its kw (S (length vs)) t) as (new & Hnew & Hall).
    rewrite Htake in Hnew. by exists new.
Qed.

(** X6.  A parallel eager call that returns a list has asked the
    collaborators, in this order and nothing else: the number of CPUs when
    [num_cpus] is absent or a float; the length of each sized iterable; a new
    pool with the resolved number of workers; [imap] of that pool for [p_map],
    [uimap] for [p_umap]; a progress display with the resolved total and the
    remaining options; and the clearing of the pool. *)
Theorem eager_parallel_call_trace (ordered : bool) (f : callable)
    (its : list iterable) (kw : kwargs) (t t' : trace) (vs : list B) :
  (if ordered then p_map pf f its kw t else p_umap pf f its kw t)
  = Some (inr vs, t') ->
  exists workers,
    fst (resolve_num_cpus (E:=E) pf (default VNone (kw !! "num_cpus"%string)) t)
    = inr workers
    /\ t' = t ++ cpu_events (default VNone (kw !! "num_cpus"%string))
              ++ len_events 0 its
              ++ [EvPool (length (filter is_pool t)) workers;
                  EvMap (length (filter is_pool t)) ordered;
                  EvTqdm (parallel_total its kw) (forwarded kw);
                  EvClear (length (filter is_pool t))].
Proof.
  assert (Heager : (if ordered then p_map pf f its kw t else p_umap pf f its kw t)
                   = py_list pf (ParFresh ordered f its kw) t) by (by destruct ordered).
  rewrite Heager. clear Heager.
  destruct (parallel_start pf ordered f its kw t) as [[e|[pool rs]] t1] eqn:Hstart.
  - by rewrite (py_list_parallel_raise _ _ _ _ _ _ _ _ Hstart).
  - rewrite (py_list_parallel _ _ _ _ _ _ _ _ _ Hstart).
    destruct (collect rs) as [e|l]; [discriminate|]. intros [= _ <-].
    apply parallel_start_ok in Hstart as (w & Hw & _ & _ & -> & _ & ->).
    exists w. split.
    + by rewrite resolve_num_cpus_run.
    + by rewrite <- !app_assoc.
Qed.

End CallFacts.

(** The function that raises on 3 has returned on 1 and 2 before. *)
Lemma ordered_lazy_maps_yield_prefix_witness :
  fst (fst (take workstation 2
              (fst (p_imap fails_on_three [Iterable true [1; 2; 3; 4]] ∅ []))
              (snd (p_imap fails_on_three [Iterable true [1; 2; 3; 4]] ∅ []))))
  = map Yield [1; 4]
  /\ fst (fst (take workstation 2
                 (fst (t_imap fails_on_three [Iterable true [1; 2; 3; 4]] ∅ []))
                 (snd (t_imap fails_on_three [Iterable true [1; 2; 3; 4]] ∅ []))))
     = map Yield [1; 4].
Proof.
  pose proof (ordered_lazy_maps_yield_prefix workstation fails_on_three
                [Iterable true [1; 2; 3; 4]] ∅ [] [[1]; [2]] [[3]; [4]] [1; 4]
                eq_refl ltac:(by repeat constructor)) as [Hpar Hseq].
  split.
  - apply Hpar. reflexivity.
  - apply Hseq; [left; reflexivity | reflexivity | reflexivity].
Defined.

(** [t_map] over 1, 2, 3 takes one length and opens one display. *)
Lemma sequential_maps_use_no_pool_witness :
  exists new,
    [EvLen 0; EvTqdm (VInt 3) ∅] = [] ++ new
    /\ Forall (fun ev => is_parallel_event ev = false) new.
Proof.
  apply (proj2 (sequential_maps_use_no_pool workstation double
                  [Iterable true [1; 2; 3]] ∅ []) (inr [2; 4; 6])).
  reflexivity.
Defined.

(** [p_umap] with the worker count 2 does not ask for the number of CPUs. *)
Lemma eager_parallel_call_trace_witness :
  exists workers,
    fst (resolve_num_cpus (E:=string) workstation
           (default VNone (({[ "num_cpus"%string := VInt 2 ]} : kwargs) !! "num_cpus"%string)) [])
    = inr workers
    /\ [EvLen 0; EvPool 0 (VInt 2); EvMap 0 false; EvTqdm (VInt 3) ∅; EvClear 0]
       = [] ++ cpu_events (default VNone (({[ "num_cpus"%string := VInt 2 ]} : kwargs) !! "num_cpus"%string))
            ++ len_events 0 [Iterable true [1; 2; 3]]
            ++ [EvPool (length (filter is_pool [])) workers;
                EvMap (length (filter is_pool [])) false;
                EvTqdm (parallel_total [Iterable true [1; 2; 3]] {[ "num_cpus"%string := VInt 2 ]})
                       (forwarded {[ "num_cpus"%string := VInt 2 ]});
                EvClear (length (filter is_pool []))].
Proof.
  apply (eager_parallel_call_trace workstation false double
           [Iterable true [1; 2; 3]] {[ "num_cpus"%string := VInt 2 ]} []
           _ [6; 4; 2]).
  reflexivity.
Defined.

(** ** The worker count: calls of [cpu_count] and floats that are no numbers *)

Section WorkerCountFacts.
Context {A B E : Type}.
Variable pf : platform.

Local Abbreviation exn := (exn E).
Local Abbreviation callable := (callable A B E).
Local Abbreviation iterable := (iterable A).
Local Abbreviation generator := (generator (A:=A) (B:=B) (E:=E)).
Local Abbreviation ParLoop := (ParLoop (A:=A) (B:=B) (E:=E)).

Lemma cpus_len_events (its : list iterable) (i : nat) :
  filter is_cpu (len_events i its) = [].
Proof.
  revert i; induction its as [|it its IH]; intros i; simpl; [reflexivity|].
  destruct (sized it); [rewrite filter_cons; simpl|]; apply IH.
Qed.

Lemma cpus_cpu_events (v : pyval) : filter is_cpu (cpu_events v) = cpu_events v.
Proof. by destruct v. Qed.

(** The prologue of [_parallel] asks for the number of CPUs first, if at all. *)
Lemma parallel_start_cpu (ordered : bool) (f : callable) (its : list iterable)
    (kw : kwargs) (t : trace) :
  exists new,
    snd (parallel_start pf ordered f its kw t) = t ++ new
    /\ filter is_cpu new = cpu_events (default VNone (kw !! "num_cpus"%string)).
Proof.
  unfold parallel_start, pop, bind. rewrite resolve_num_cpus_run.
  set (v := default VNone (kw !! "num_cpus"%string)).
  destruct (worker_count pf v) as [e|workers].
  { exists (cpu_events v). split; [reflexivity | apply cpus_cpu_events]. }
  rewrite sized_lengths_run. unfold new_pool.
  destruct (pool_accepts pf workers).
  2:{ exists (cpu_events v ++ len_events 0 its). simpl. rewrite <- app_assoc.
      split; [reflexivity|].
      by rewrite filter_app, cpus_cpu_events, cpus_len_events, app_nil_r. }
  set (pool := length (filter is_pool (t ++ cpu_events v ++ len_events 0 its))).
  assert (Hmid : filter is_cpu (cpu_events v ++ len_events 0 its
                                ++ [EvPool pool workers; EvMap pool ordered])
                 = cpu_events v).
  { rewrite !filter_app, cpus_cpu_events, cpus_len_events. simpl.
    by rewrite app_nil_r. }
  unfold pool_map, tqdm, bind, emit, ret, raise.
  rewrite <- !app_assoc. fold pool. simpl app.
  destruct (_ !! "total"%string).
  - eexists. split; [reflexivity | exact Hmid].
  - exists (cpu_events v ++ len_events 0 its
            ++ [EvPool pool workers; EvMap pool ordered;
                EvTqdm (py_or (default VNone (delete "num_cpus"%string kw !! "total"%string))
                          (min_or_none (known_lengths its)))
                       (delete "total"%string (delete "num_cpus"%string kw))]).
    split.
    + destruct (tqdm_accepts pf _ _); simpl; by rewrite <- !app_assoc.
    + rewrite !filter_app, cpus_cpu_events, cpus_len_events. simpl.
      by rewrite app_nil_r.
Qed.

(** X7.  However a parallel call goes on, and however many elements are
    requested, [cpu_count] is called once when [num_cpus] is absent, [None]
    or a float, and not at all when it is anything else, such as an integer. *)
Theorem cpu_count_called_when_needed (ordered : bool) (f : callable)
    (its : list iterable) (kw : kwargs) (t : trace) (n : nat) :
  let lazy := if ordered then p_imap f its kw t else p_uimap f its kw t in
  exists new,
    snd (take pf (S n) (fst lazy) (snd lazy)) = t ++ new
    /\ (kw !! "num_cpus"%string = None -> filter is_cpu new = [EvCpuCount])
    /\ (forall x, kw !! "num_cpus"%string = Some (VFloat x) ->
          filter is_cpu new = [EvCpuCount])
    /\ (forall z, kw !! "num_cpus"%string = Some (VInt z) -> filter is_cpu new = []).
Proof.
  intros lazy.
  assert (Hlazy : lazy = (ParFresh ordered f its kw, t)) by (by destruct ordered).
  rewrite Hlazy. clear lazy Hlazy. cbn [fst snd].
  assert (Hnew : exists new,
            snd (take pf (S n) (ParFresh ordered f its kw) t) = t ++ new
            /\ filter is_cpu new = cpu_events (default VNone (kw !! "num_cpus"%string))).
  { destruct (parallel_start_cpu ordered f its kw t) as (new & Hnew & Hcpu).
    destruct (parallel_start pf ordered f its kw t) as [[e|[pool rs]] t1] eqn:Hstart;
      cbn [snd] in Hnew; subst t1.
    - exists new. split; [|exact Hcpu].
      simpl. rewrite Hstart. by rewrite take_closed.
    - rewrite (take_same_next _ _ _ _ _ _ (next_fresh_parallel _ _ _ _ _ _ _ _ _ Hstart)).
      rewrite take_parallel_loop_clear.
      destruct (exhausted _).
      + exists (new ++ [EvClear pool]). rewrite <- app_assoc. split; [reflexivity|].
        by rewrite filter_app, Hcpu, app_nil_r.
      + exists new. by rewrite app_nil_r. }
  destruct Hnew as (new & Hnew & Hcpu). exists new.
  split; [exact Hnew|]. rewrite Hcpu.
  split; [|split].
  - by intros ->.
  - by intros x ->.
  - by intros z ->.
Qed.

(** X8.  A float [num_cpus] whose product with the number of CPUs is not a
    number or is infinite makes [int(round(...))] raise, [ValueError] for the
    one and [OverflowError] for the other: the eager calls raise it, the lazy
    ones at the first request, after the call of [cpu_count] and before any
    length is taken or any pool is created. *)
Theorem float_override_not_finite (ordered : bool) (f : callable)
    (its : list iterable) (kw : kwargs) (t : trace) (x product : spec_float) :
  kw !! "num_cpus"%string = Some (VFloat x) ->
  py_float_times_int (E:=E) x (Zpos (cpu_count pf)) = inr product ->
  (product = S754_nan \/ exists s, product = S754_infinity s) ->
  let e := match product with
           | S754_nan => ValueError_nan_to_int
           | _ => OverflowError_inf_to_int
           end in
  let lazy := if ordered then p_imap f its kw t else p_uimap f its kw t in
  (if ordered then p_map pf f its kw t else p_umap pf f its kw t)
  = Some (inl e, t ++ [EvCpuCount])
  /\ next pf (fst lazy) (snd lazy) = (Raise e, Closed, t ++ [EvCpuCount]).
Proof.
  intros Hkw Hmul Hbad e lazy.
  assert (Hlazy : lazy = (ParFresh ordered f its kw, t)) by (by destruct ordered).
  assert (Heager : (if ordered then p_map pf f its kw t else p_umap pf f its kw t)
                   = py_list pf (ParFresh ordered f its kw) t) by (by destruct ordered).
  rewrite Hlazy, Heager. clear lazy Hlazy Heager. cbn [fst snd].
  assert (Hstart : parallel_start pf ordered f its kw t = (inl e, t ++ [EvCpuCount])).
  { unfold parallel_start, pop, bind. rewrite Hkw. simpl.
    unfold bind, call_cpu_count, bind, emit, ret, lift. simpl. rewrite Hmul.
    subst e. by destruct Hbad as [-> | [s ->]]. }
  split.
  - by apply py_list_parallel_raise.
  - simpl. by rewrite Hstart.
Qed.

End WorkerCountFacts.

(** With the worker count 2, [cpu_count] is never called. *)
Lemma cpu_count_called_when_needed_witness :
  exists new,
    snd (take workstation 5
           (fst (p_imap double [Iterable true [1; 2; 3]] {[ "num_cpus"%string := VInt 2 ]} []))
           (snd (p_imap double [Iterable true [1; 2; 3]] {[ "num_cpus"%string := VInt 2 ]} [])))
    = [] ++ new
    /\ filter is_cpu new = [].
Proof.
  destruct (cpu_count_called_when_needed workstation true double
              [Iterable true [1; 2; 3]] {[ "num_cpus"%string := VInt 2 ]} [] 4)
    as (new & Hnew & _ & _ & Hint).
  exists new. split; [exact Hnew | exact (Hint 2 eq_refl)].
Defined.

(** [num_cpus=float("nan")] and [num_cpus=float("inf")]. *)
Lemma float_override_not_finite_witness :
  p_map workstation double [Iterable true [1; 2; 3]]
    {[ "num_cpus"%string := VFloat S754_nan ]} []
  = Some (inl ValueError_nan_to_int, [EvCpuCount])
  /\ p_umap workstation double [Iterable true [1; 2; 3]]
       {[ "num_cpus"%string := VFloat (S754_infinity false) ]} []
     = Some (inl OverflowError_inf_to_int, [EvCpuCount]).
Proof.
  split.
  - apply (float_override_not_finite workstation true double
             [Iterable true [1; 2; 3]] {[ "num_cpus"%string := VFloat S754_nan ]} []
             S754_nan S754_nan); [reflexivity | reflexivity | by left].
  - apply (float_override_not_finite workstation false double
             [Iterable true [1; 2; 3]]
             {[ "num_cpus"%string := VFloat (S754_infinity false) ]} []
             (S754_infinity false) (S754_infinity false));
      [reflexivity | reflexivity | right; by exists false].
Defined.

(** ** The zipped tasks and the total of the display *)

Section TaskFacts.
Context {X : Type}.

Lemma zip_cons_lookup (xs : list X) (rows : list (list X)) (i : nat) :
  zip_cons xs rows !! i =
  match xs !! i, rows !! i with
  | Some x, Some row => Some (x :: row)
  | _, _ => None
  end.
Proof.
  revert rows i; induction xs as [|x xs IH]; intros [|row rows] [|i]; simpl;
    try reflexivity.
  - by destruct (xs !! i).
  - apply IH.
Qed.

(** X9.  The task of index [i] of one or more zipped iterables exists
    exactly when each iterable has an item of index [i], and consists of
    these items in the order of the iterables. *)
Theorem zip_star_lookup (its : list (list X)) (i : nat) (row : list X) :
  its <> [] ->
  (zip_star its !! i = Some row
   <-> Forall2 (fun xs x => xs !! i = Some x) its row).
Proof.
  intros Hne. revert row.
  induction its as [|xs rest IH]; [done|]. clear Hne. intros row.
  destruct rest as [|ys rest'].
  - simpl. rewrite list_lookup_fmap. split.
    + destruct (xs !! i) as [x|] eqn:Hx; [|discriminate]. intros [= <-].
      constructor; [exact Hx | constructor].
    + intros H. apply Forall2_cons_inv_l in H as (x & row' & Hx & Hrest & ->).
      apply Forall2_nil_inv_l in Hrest as ->. by rewrite Hx.
  - change (zip_star (xs :: ys :: rest')) with (zip_cons xs (zip_star (ys :: rest'))).
    rewrite zip_cons_lookup. split.
    + destruct (xs !! i) as [x|] eqn:Hx; [|discriminate].
      destruct (zip_star (ys :: rest') !! i) as [row'|] eqn:Hrow; [|discriminate].
      intros [= <-]. constructor; [exact Hx|]. by apply IH.
    + intros H. apply Forall2_cons_inv_l in H as (x & row' & Hx & Hrest & ->).
      rewrite Hx. apply IH in Hrest; [|done]. by rewrite Hrest.
Qed.

End TaskFacts.

(** The second task of two zipped iterables. *)
Lemma zip_star_lookup_witness :
  zip_star [[1; 2; 3]; [10; 20; 30; 40]] !! 1%nat = Some [2; 20].
Proof.
  apply (zip_star_lookup [[1; 2; 3]; [10; 20; 30; 40]] 1 [2; 20]); [done|].
  by repeat constructor.
Defined.

Section TotalFacts.
Context {A B E : Type}.
Variable pf : platform.

Local Abbreviation exn := (exn E).
Local Abbreviation callable := (callable A B E).
Local Abbreviation iterable := (iterable A).





(** X11.  The sequential entry points cannot be given a [total]: with some
    sized iterable, [t_map] raises [TypeError] for the keyword given twice,
    and [t_imap] does at the first request, once the lengths are taken and
    before a display is opened or the function is called. *)
Theorem sequential_maps_reject_total (f : callable) (its : list iterable)
    (kw : kwargs) (t : trace) (v : pyval) :
  kw !! "total"%string = Some v ->
  Exists (fun it => sized it = true) its ->
  t_map pf f its kw t
  = Some (inl (TypeError_multiple_values "total"), t ++ len_events 0 its)
  /\ next pf (fst (t_imap f its kw t)) (snd (t_imap f its kw t))
     = (Raise (TypeError_multiple_values "total"), Closed, t ++ len_events 0 its)
  /\ display_totals (t ++ len_events 0 its) = display_totals t.
Proof.
  intros Hkw (n & Hn)%known_lengths_sized.
  assert (Hstart : sequential_start (E:=E) pf its kw t
                   = (inl (TypeError_multiple_values "total"), t ++ len_events 0 its)).
  { unfold sequential_start, bind. rewrite sized_lengths_run, Hn.
    unfold tqdm. by rewrite Hkw. }
  split; [|split].
  - unfold t_map. by apply py_list_sequential_raise.
  - unfold t_imap. cbn [fst snd]. simpl. by rewrite Hstart.
  - unfold display_totals. rewrite omap_app.
    fold (display_totals (len_events 0 its)).
    by rewrite display_totals_len_events, app_nil_r.
Qed.

End TotalFacts.


(** [t_map(f, [1, 2, 3], total=3)] *)
Lemma sequential_maps_reject_total_witness :
  t_map workstation double [Iterable true [1; 2; 3]] {[ "total"%string := VInt 3 ]} []
  = Some (inl (TypeError_multiple_values "total"), [EvLen 0]).
Proof.
  apply (sequential_maps_reject_total workstation double
           [Iterable true [1; 2; 3]] {[ "total"%string := VInt 3 ]} [] (VInt 3));
    [reflexivity | left; reflexivity].
Defined.

(** ** Pools that are never cleared, and rounding *)

Section LeakFacts.
Context {A B E : Type}.
Variable pf : platform.

Local Abbreviation exn := (exn E).
Local Abbreviation callable := (callable A B E).
Local Abbreviation iterable := (iterable A).
Local Abbreviation ParLoop := (ParLoop (A:=A) (B:=B) (E:=E)).




(** X14.  [int(round(x))] of a finite float is exact when the float is an
    integer multiple of a power of two that is at least 1, and otherwise
    differs from the float by at most one half, a tie going to the even
    neighbour. *)
Theorem py_round_nearest (s : bool) (m : positive) (e r : Z) :
  py_round (E:=E) (S754_finite s m e) = inr r ->
  (0 <= e -> r = cond_Zopp s (Zpos m * 2 ^ e))
  /\ (forall p, e = Zneg p ->
        2 * Z.abs (r * 2 ^ Zpos p - cond_Zopp s (Zpos m)) <= 2 ^ Zpos p
        /\ (2 * (Zpos m mod 2 ^ Zpos p) = 2 ^ Zpos p -> Z.even r = true)).
Proof.
  simpl. intros [= <-]. split.
  - intros He. unfold round_magnitude. by destruct e.
  - intros p ->. unfold round_magnitude, round_half_even_div.
    assert (Hd : 0 < 2 ^ Zpos p) by (apply Z.pow_pos_nonneg; lia).
    set (d := 2 ^ Zpos p) in *.
    pose proof (Z.div_mod (Zpos m) d ltac:(lia)) as Hdiv.
    pose proof (Z.mod_pos_bound (Zpos m) d Hd) as Hmod.
    set (q := Zpos m / d) in *. set (k := Zpos m mod d) in *.
    assert (Heven : forall z, Z.even (cond_Zopp s z) = Z.even z).
    { intros z. destruct s; simpl; [apply Z.even_opp | reflexivity]. }
    destruct (Z.compare_spec (2 * k) d) as [Heq | Hlt | Hgt].
    + destruct (Z.even q) eqn:Hq.
      * split; [destruct s; simpl; lia | intros _; by rewrite Heven].
      * split; [destruct s; simpl; lia|]. intros _. rewrite Heven.
        rewrite Z.even_add, Hq. reflexivity.
    + split; [destruct s; simpl; lia | lia].
    + split; [destruct s; simpl; lia | lia].
Qed.

End LeakFacts.



(** 2.5 rounds to 2: half away, and even. *)
Lemma py_round_nearest_witness :
  2 * Z.abs (2 * 2 ^ 1 - 5) <= 2 ^ 1 /\ Z.even 2 = true.
Proof.
  destruct (proj2 (py_round_nearest (E:=string) false 5 (-1) 2 eq_refl)
              1%positive eq_refl) as [Hbound Heven].
  split; [exact Hbound | apply Heven; reflexivity].
Defined.
